(** * A shallow embedding of BrainFuckInterpreter.cpp

    The first part embeds the program: the [Pointer] class (the lazily
    growing tape), the [Command] class, the character classifiers,
    [skipComment] and [generateSourceCode], the standard streams,
    [operation] and [interpret], [skipLoop], and the loop of [main].  The
    second part states and proves properties of the compiler and of the
    execution loop.

    Conventions.
    - [std::size_t] values are integers in [Z] and every arithmetic step the
      source performs on them is followed by [size_t_wrap] (reduction modulo
      2^64).
    - A tape cell is a C++ [char].  It is represented by the value of its
      byte as an [unsigned char], an integer in [0, 256): this is the value
      that [main] compares with 0 and that [std::ostream_iterator<unsigned
      char>] prints.
    - Characters of the source text and of the input stream are [ascii].
    - An iterator into a vector is an index ([nat]); an input iterator range
      is the list of the characters still to be read.
    - An [assert] that fails and a read outside a container are explicit
      outcomes ([AssertionFailed], [OutOfBounds]) of the [result] type.
    - Loops whose iteration count is not given by a structure take a [fuel]
      argument and return [None] when it runs out. *)

From Stdlib Require Import ZArith Ascii String List Bool Lia.
Import ListNotations.
Local Open Scope Z_scope.

(** ** Machine integers *)

Definition size_t_modulus : Z := 2 ^ 64.
Definition size_t_wrap (z : Z) : Z := z mod size_t_modulus.

Definition char_modulus : Z := 256.
(** [static_cast<char>(z)], as the value of the resulting byte. *)
Definition char_cast (z : Z) : Z := z mod char_modulus.

(** ** Outcomes of fallible code *)

Inductive error : Type :=
| AssertionFailed   (* an [assert] of the source does not hold *)
| OutOfBounds.      (* an iterator is read at or past the end *)

Inductive result (A : Type) : Type :=
| Ok (a : A)
| Err (e : error).
Arguments Ok {A} a.
Arguments Err {A} e.

Definition bind {A B : Type} (r : result A) (k : A -> result B) : result B :=
  match r with
  | Ok a => k a
  | Err e => Err e
  end.

Notation "x <- r ;; k" := (bind r (fun x => k))
  (at level 61, r at next level, right associativity).

(** ** class Pointer: the "infinite" buffer pointer *)

Record Pointer : Type := mkPointer { mem_ : list Z; index_ : Z }.

(* mem_.size() *)
Definition mem_size (p : Pointer) : Z := Z.of_nat (length (mem_ p)).

(* std::deque::resize: truncate, or append value-initialised cells *)
Definition resize (n : Z) (mem : list Z) : list Z :=
  firstn (Z.to_nat n) mem ++ repeat 0 (Z.to_nat n - length mem)%nat.

(* explicit Pointer(size_type const preAllocatedMemory = 1) *)
Definition Pointer_new (preAllocatedMemory : Z) : result Pointer :=
  let p := mkPointer (repeat 0 (Z.to_nat preAllocatedMemory)) 0 in
  if preAllocatedMemory =? 0 then Err AssertionFailed else Ok p.

(* auto& operator+=(size_type const c) *)
Definition Pointer_add (p : Pointer) (c : Z) : Pointer :=
  let index := size_t_wrap (index_ p + c) in
  if mem_size p <=? index
  then mkPointer (resize (size_t_wrap (index + 1)) (mem_ p)) index
  else mkPointer (mem_ p) index.

(* auto& operator-=(size_type const c) noexcept *)
Definition Pointer_sub (p : Pointer) (c : Z) : result Pointer :=
  if size_t_wrap (index_ p - c) <? index_ p
  then Ok (mkPointer (mem_ p) (size_t_wrap (index_ p - c)))
  else Err AssertionFailed.

(* operator*() const&: the value of the cell under the cursor *)
Definition deref (p : Pointer) : result Z :=
  if mem_size p >? index_ p then
    match nth_error (mem_ p) (Z.to_nat (index_ p)) with
    | Some v => Ok v
    | None => Err OutOfBounds
    end
  else Err AssertionFailed.

Fixpoint set_nth (n : nat) (v : Z) (mem : list Z) : list Z :=
  match mem, n with
  | [], _ => []
  | _ :: mem', O => v :: mem'
  | x :: mem', S n' => x :: set_nth n' v mem'
  end.

(* an assignment through the reference returned by operator*() & *)
Definition assign (p : Pointer) (v : Z) : Pointer :=
  mkPointer (set_nth (Z.to_nat (index_ p)) v (mem_ p)) (index_ p).

(** ** class Command *)

(** [count] is a [std::size_t]: its values lie in [0, 2^64). *)
Record Command : Type := mkCommand { command : ascii; count : Z }.

(* enum ActionableCommands *)
Definition PointerIncr : ascii := ">".
Definition PointerDecr : ascii := "<".
Definition CellValIncr : ascii := "+".
Definition CellValDecr : ascii := "-".
Definition Cout : ascii := ".".
Definition Cin : ascii := ",".
Definition LoopBegin : ascii := "[".
Definition LoopEnd : ascii := "]".

(* bool operator==(Command const com, char const ch) *)
Definition Command_eq (com : Command) (ch : ascii) : bool :=
  Ascii.eqb (command com) ch.

(* bool operator!=(Command const com, char const ch) *)
Definition Command_neq (com : Command) (ch : ascii) : bool :=
  negb (Command_eq com ch).

(** ** Character classes *)

Definition isLoopCommand (ch : ascii) : bool :=
  if Ascii.eqb ch LoopBegin then true
  else if Ascii.eqb ch LoopEnd then true
  else false.

Definition isCommand (ch : ascii) : bool :=
  if Ascii.eqb ch LoopBegin then true
  else if Ascii.eqb ch LoopEnd then true
  else if Ascii.eqb ch PointerIncr then true
  else if Ascii.eqb ch PointerDecr then true
  else if Ascii.eqb ch CellValIncr then true
  else if Ascii.eqb ch CellValDecr then true
  else if Ascii.eqb ch Cout then true
  else if Ascii.eqb ch Cin then true
  else false.

(** ** The command compiler *)

(** An iterator range [beg, end) is the list of the characters still to be
    read. *)
Fixpoint skipComment (beg : list ascii) : list ascii :=
  match beg with
  | [] => []
  | x :: beg' => if negb (isCommand x) then skipComment beg' else beg
  end.

(** The inner loop of [generateSourceCode]:
    [while ((beg = skipComment(beg, end)) != end and *beg == ch)
       { ++count; ++beg; }].
    It returns the iterator and the counter at loop exit. *)
Fixpoint accumulate (fuel : nat) (ch : ascii) (beg : list ascii) (cnt : Z)
  : option (list ascii * Z) :=
  match fuel with
  | O => None
  | S fuel' =>
      match skipComment beg with
      | [] => Some ([], cnt)
      | x :: beg' =>
          if Ascii.eqb x ch
          then accumulate fuel' ch beg' (size_t_wrap (cnt + 1))
          else Some (x :: beg', cnt)
      end
  end.

(** The outer loop; [source_code] is the vector built so far and
    [emplace_back] appends to it. *)
Fixpoint generateSourceCode_loop (fuel : nat) (beg : list ascii)
    (source_code : list Command) : option (list Command) :=
  match beg with
  | [] => Some source_code
  | ch :: beg' =>
      match fuel with
      | O => None
      | S fuel' =>
          if isLoopCommand ch then
            generateSourceCode_loop fuel' beg'
              (source_code ++ [mkCommand ch (size_t_wrap (0 + 1))])
          else if isCommand ch then
            match accumulate (S (length beg)) ch beg 0 with
            | None => None
            | Some (beg'', cnt) =>
                generateSourceCode_loop fuel' beg''
                  (source_code ++ [mkCommand ch cnt])
            end
          else
            generateSourceCode_loop fuel' beg' (source_code ++ [mkCommand ch 0])
      end
  end.

Definition generateSourceCode (beg : list ascii) : option (list Command) :=
  generateSourceCode_loop (length beg) beg [].

(** [std::istream_iterator<char>] reads with [operator>>], which skips
    white space (in the "C" locale: space, \t, \n, \v, \f, \r) before every
    character it delivers. *)
Definition isspace (ch : ascii) : bool :=
  let n := nat_of_ascii ch in
  (Nat.eqb n 32 || (Nat.leb 9 n && Nat.leb n 13))%bool.

Definition StremIter (f : list ascii) : list ascii :=
  filter (fun ch => negb (isspace ch)) f.

Definition chars (s : string) : list ascii := list_ascii_of_string s.

(** What [main] compiles from the text of the source-code file. *)
Definition sourceCode_of (f : string) : option (list Command) :=
  generateSourceCode (StremIter (chars f)).

(** ** The standard streams

    [std::cin] is the list of the bytes not yet read and its failbit;
    [std::cout] is the list of the bytes written so far. *)

Record istream : Type := mkIstream { in_buf : list ascii; in_fail : bool }.

Fixpoint skipws (buf : list ascii) : list ascii :=
  match buf with
  | [] => []
  | x :: buf' => if isspace x then skipws buf' else buf
  end.

(** [std::cin >> c] for a [char& c]: nothing happens on a stream that has
    failed; otherwise leading white space is skipped and one character is
    extracted; when there is none the failbit is set and [c] keeps its
    value. *)
Definition extract_char (s : istream) : istream * option ascii :=
  if in_fail s then (s, None)
  else match skipws (in_buf s) with
       | [] => (mkIstream [] true, None)
       | c :: buf' => (mkIstream buf' false, Some c)
       end.

Record IO : Type := mkIO { cin : istream; cout : list Z }.

(** ** operation and interpret *)

(* template <char op, typename T1, typename T2> operation(T1& t, T2 const t2)
   with T1 = char and T2 = std::size_t; the result is the new value of t *)
Definition operation (op : ascii) (t : Z) (t2 : Z) : Z :=
  if Ascii.eqb op "+" then char_cast (t + char_cast t2)
  else if Ascii.eqb op "-" then char_cast (t - char_cast t2)
  else t.

(* for (std::size_t i = 0; i != count; ++i) std::cin >> *p; *)
Fixpoint cin_loop (n : nat) (p : Pointer) (s : istream)
  : result (Pointer * istream) :=
  match n with
  | O => Ok (p, s)
  | S n' =>
      _ <- deref p ;;
      match extract_char s with
      | (s', Some c) => cin_loop n' (assign p (Z.of_nat (nat_of_ascii c))) s'
      | (s', None) => cin_loop n' p s'
      end
  end.

(* bool interpret(Command const com, Pointer& p) *)
Definition interpret (com : Command) (p : Pointer) (io : IO)
  : result (bool * Pointer * IO) :=
  let ch := command com in
  let cnt := count com in
  if Ascii.eqb ch PointerIncr then
    Ok (true, Pointer_add p cnt, io)
  else if Ascii.eqb ch PointerDecr then
    p' <- Pointer_sub p cnt ;;
    Ok (true, p', io)
  else if Ascii.eqb ch CellValIncr then
    v <- deref p ;;
    Ok (true, assign p (operation "+" v cnt), io)
  else if Ascii.eqb ch CellValDecr then
    v <- deref p ;;
    Ok (true, assign p (operation "-" v cnt), io)
  else if Ascii.eqb ch Cout then
    v <- deref p ;;
    Ok (true, p, mkIO (cin io) (cout io ++ repeat v (Z.to_nat cnt)))
  else if Ascii.eqb ch Cin then
    r <- cin_loop (Z.to_nat cnt) p (cin io) ;;
    Ok (true, fst r, mkIO (snd r) (cout io))
  else
    Ok (false, p, io).

(** ** skipLoop *)

(** The do-while loop of [skipLoop]; [rest] is the range from the iterator
    [p] to the end of the vector. *)
Fixpoint skipLoop_scan (rest : list Command) (p : nat) (bracketCount : Z)
  : result nat :=
  match rest with
  | [] => Err OutOfBounds
  | com :: rest' =>
      let bracketCount :=
        if Command_eq com LoopBegin then size_t_wrap (bracketCount + 1)
        else if Command_eq com LoopEnd then size_t_wrap (bracketCount - 1)
        else bracketCount in
      let p := S p in
      if negb (bracketCount =? 0)
      then skipLoop_scan rest' p bracketCount
      else Ok (p - 1)%nat
  end.

(** An iterator into the vector [sourceCode] is its index. *)
Definition skipLoop (sourceCode : list Command) (p : nat) : result nat :=
  match nth_error sourceCode p with
  | None => Err OutOfBounds
  | Some com =>
      if Command_eq com LoopBegin
      then skipLoop_scan (skipn p sourceCode) p 0
      else Err AssertionFailed
  end.

(** ** The execution loop of main *)

Record State : Type := mkState {
  it : nat;               (* the running cursor into sourceCode *)
  loopPos : list nat;     (* std::stack, top first *)
  ptr : Pointer;          (* Pointer p *)
  io : IO
}.

(** One iteration of [while (it != end)]. *)
Definition step (sourceCode : list Command) (s : State) : result State :=
  match nth_error sourceCode (it s) with
  | None => Err OutOfBounds
  | Some com =>
      if Command_eq com LoopBegin then
        v <- deref (ptr s) ;;
        if v =? 0 then
          it' <- skipLoop sourceCode (it s) ;;
          Ok (mkState (S it') (loopPos s) (ptr s) (io s))
        else
          Ok (mkState (S (it s)) (it s :: loopPos s) (ptr s) (io s))
      else if Command_eq com LoopEnd then
        match loopPos s with
        | [] => Err AssertionFailed
        | top :: loopPos' => Ok (mkState top loopPos' (ptr s) (io s))
        end
      else
        r <- interpret com (ptr s) (io s) ;;
        Ok (mkState (S (it s)) (loopPos s) (snd (fst r)) (snd r))
  end.

(** [run fuel sourceCode s] iterates the loop at most [fuel] times:
    [None] when the fuel is used up before the loop is left, [Some (Ok s')]
    when the loop is left in state [s'], [Some (Err e)] when an iteration
    aborts. *)
Fixpoint run (fuel : nat) (sourceCode : list Command) (s : State)
  : option (result State) :=
  if Nat.eqb (it s) (length sourceCode) then Some (Ok s)
  else match fuel with
       | O => None
       | S fuel' =>
           match step sourceCode s with
           | Ok s' => run fuel' sourceCode s'
           | Err e => Some (Err e)
           end
       end.

(** The state in which [main] enters its loop: [Pointer p;] and an empty
    stack; [input] is what standard input holds. *)
Definition initial (input : list ascii) : result State :=
  p <- Pointer_new 1 ;;
  Ok (mkState 0 [] p (mkIO (mkIstream input false) [])).

(** [main] on the text [f] of the source-code file. *)
Definition main (fuel : nat) (f : string) (input : list ascii)
  : option (result State) :=
  match initial input with
  | Err e => Some (Err e)
  | Ok s =>
      match sourceCode_of f with
      | None => None
      | Some sourceCode => run fuel sourceCode s
      end
  end.

(** ** Notions used to state the properties *)

(** The vector compiled from a text, for stating examples. *)
Definition chars_program (f : string) : list Command :=
  match sourceCode_of f with
  | Some sourceCode => sourceCode
  | None => []
  end.

(** *** Runs, described structurally

    [run_rest ch beg] and [run_count ch beg] describe where the inner loop
    of [generateSourceCode] stops in [beg] and how many occurrences of [ch]
    it has passed by then. *)

Fixpoint run_rest (ch : ascii) (beg : list ascii) : list ascii :=
  match beg with
  | [] => []
  | x :: beg' =>
      if negb (isCommand x) then run_rest ch beg'
      else if Ascii.eqb x ch then run_rest ch beg'
      else beg
  end.

Fixpoint run_count (ch : ascii) (beg : list ascii) : nat :=
  match beg with
  | [] => O
  | x :: beg' =>
      if negb (isCommand x) then run_count ch beg'
      else if Ascii.eqb x ch then S (run_count ch beg')
      else O
  end.

(** The last operator character of a text, if it has one. *)
Fixpoint last_command (l : list ascii) : option ascii :=
  match l with
  | [] => None
  | x :: l' =>
      match last_command l' with
      | Some y => Some y
      | None => if isCommand x then Some x else None
      end
  end.

(** The vector that [generateSourceCode] returns ([generateSourceCode_total]
    below shows that it always returns one). *)
Definition program_of (beg : list ascii) : list Command :=
  match generateSourceCode beg with
  | Some source_code => source_code
  | None => []
  end.

(** [serialize] writes a vector of Commands back as text: every Command's
    character, [count] times. *)
Definition serialize (source_code : list Command) : list ascii :=
  flat_map (fun com => repeat (command com) (Z.to_nat (count com))) source_code.


(** A sequence of Commands in which the brackets are properly nested. *)
Inductive balanced : list Command -> Prop :=
| balanced_nil : balanced []
| balanced_plain com l :
    Command_eq com LoopBegin = false ->
    Command_eq com LoopEnd = false ->
    balanced l ->
    balanced (com :: l)
| balanced_nest o body c l :
    Command_eq o LoopBegin = true ->
    Command_eq c LoopEnd = true ->
    balanced body ->
    balanced l ->
    balanced (o :: body ++ c :: l).

(** The input can deliver no further character: the stream has failed, or
    only white space is left in it. *)
Definition exhausted (s : istream) : Prop :=
  in_fail s = true \/ skipws (in_buf s) = [].

(** The vector without its comment Commands, and where a position of the
    vector lies in the vector so reduced. *)
Definition strip (sourceCode : list Command) : list Command :=
  filter (fun com => isCommand (command com)) sourceCode.

Definition strip_pos (sourceCode : list Command) (i : nat) : nat :=
  length (strip (firstn i sourceCode)).

Definition strip_state (sourceCode : list Command) (s : State) : State :=
  mkState (strip_pos sourceCode (it s))
          (map (strip_pos sourceCode) (loopPos s))
          (ptr s) (io s).

Definition result_map {A B : Type} (f : A -> B) (r : result A) : result B :=
  match r with
  | Ok a => Ok (f a)
  | Err e => Err e
  end.

(** The cursor and the logged loop positions lie within the vector. *)
Definition positions_ok (sourceCode : list Command) (s : State) : Prop :=
  Forall (fun q => (q <= length sourceCode)%nat) (it s :: loopPos s).

(** The cursor of the tape addresses a materialised cell. *)
Definition pointer_ok (p : Pointer) : Prop :=
  0 <= index_ p < mem_size p.


(** [unwinds k l]: [l] consists of [k] properly nested stretches, each
    followed by a LoopClose; it is what a scan entered with the counter at
    [k] passes until the counter is 0. *)
Inductive unwinds : nat -> list Command -> Prop :=
| unwinds_zero : unwinds O []
| unwinds_more k b c l :
    balanced b ->
    Command_eq c LoopEnd = true ->
    unwinds k l ->
    unwinds (S k) (b ++ c :: l).


(** [steps n sourceCode s]: the state after [n] iterations of the loop of
    [main] from [s], if none of them aborts. *)
Fixpoint steps (n : nat) (sourceCode : list Command) (s : State)
  : result State :=
  match n with
  | O => Ok s
  | S n' => s' <- step sourceCode s ;; steps n' sourceCode s'
  end.

(** The positions of the LoopOpens of [l] that are not closed within [l],
    innermost first, on top of [stack]; [pos] is the position of the head
    of [l].  [None] when [l] closes a loop that is not open. *)
Fixpoint opens (l : list Command) (pos : nat) (stack : list nat)
  : option (list nat) :=
  match l with
  | [] => Some stack
  | com :: l' =>
      if Command_eq com LoopBegin then opens l' (S pos) (pos :: stack)
      else if Command_eq com LoopEnd then
        match stack with
        | [] => None
        | _ :: stack' => opens l' (S pos) stack'
        end
      else opens l' (S pos) stack
  end.

(** The loops that are open in front of position [n]. *)
Definition open_loops (sourceCode : list Command) (n : nat)
  : option (list nat) :=
  opens (firstn n sourceCode) 0 [].

(** Two outcomes of the loop of [main] that an observer cannot tell apart:
    the same tape and streams, or the same abort. *)
Definition same_outcome (r r' : result State) : Prop :=
  match r, r' with
  | Ok s, Ok s' => ptr s = ptr s' /\ io s = io s'
  | Err e, Err e' => e = e'
  | _, _ => False
  end.

(** The value a character has as a tape cell. *)
Definition cell_of (c : ascii) : Z := Z.of_nat (nat_of_ascii c).


(** [interpret] applied [k] times in a row to the same Command, the answers
    dropped. *)
Fixpoint interpret_times (k : nat) (com : Command) (p : Pointer) (io0 : IO)
  : result (Pointer * IO) :=
  match k with
  | O => Ok (p, io0)
  | S k' =>
      r <- interpret com p io0 ;;
      interpret_times k' com (snd (fst r)) (snd r)
  end.

(** * Properties of the command compiler *)

Lemma isLoopCommand_isCommand ch :
  isLoopCommand ch = true -> isCommand ch = true.
Proof.
  unfold isLoopCommand, isCommand.
  destruct (Ascii.eqb ch LoopBegin); [reflexivity|].
  destruct (Ascii.eqb ch LoopEnd); [reflexivity|discriminate].
Qed.

Lemma size_t_wrap_succ z :
  size_t_wrap (size_t_wrap z + 1) = size_t_wrap (z + 1).
Proof.
  unfold size_t_wrap. rewrite Z.add_mod_idemp_l by discriminate. reflexivity.
Qed.

Lemma size_t_wrap_small z : 0 <= z < size_t_modulus -> size_t_wrap z = z.
Proof. intros H. unfold size_t_wrap. apply Z.mod_small. exact H. Qed.

Lemma skipComment_length beg : (length (skipComment beg) <= length beg)%nat.
Proof.
  induction beg as [|x beg IH]; simpl; [lia|].
  destruct (isCommand x); simpl; lia.
Qed.

Lemma skipComment_head x beg' beg :
  skipComment beg = x :: beg' -> isCommand x = true.
Proof.
  induction beg as [|y beg IH]; simpl; [discriminate|].
  destruct (isCommand y) eqn:E; simpl; [|exact IH].
  intros H. injection H as -> _. exact E.
Qed.

Lemma run_rest_skipComment ch beg :
  run_rest ch (skipComment beg) = run_rest ch beg.
Proof.
  induction beg as [|x beg IH]; simpl; [reflexivity|].
  destruct (isCommand x) eqn:E; simpl; [|exact IH].
  rewrite E. reflexivity.
Qed.

Lemma run_count_skipComment ch beg :
  run_count ch (skipComment beg) = run_count ch beg.
Proof.
  induction beg as [|x beg IH]; simpl; [reflexivity|].
  destruct (isCommand x) eqn:E; simpl; [|exact IH].
  rewrite E. reflexivity.
Qed.

Lemma run_rest_length ch beg : (length (run_rest ch beg) <= length beg)%nat.
Proof.
  induction beg as [|x beg IH]; simpl; [lia|].
  destruct (isCommand x); simpl; [|lia].
  destruct (Ascii.eqb x ch); simpl; lia.
Qed.

(** With more fuel than characters the inner loop runs to its exit. *)
Lemma accumulate_run fuel ch : forall beg c,
  (length beg < fuel)%nat ->
  accumulate fuel ch beg (size_t_wrap c) =
  Some (run_rest ch beg, size_t_wrap (c + Z.of_nat (run_count ch beg))).
Proof.
  induction fuel as [|fuel IH]; intros beg c Hlen; [lia|].
  simpl accumulate.
  rewrite <- (run_rest_skipComment ch beg), <- (run_count_skipComment ch beg).
  pose proof (skipComment_length beg) as Hsk.
  destruct (skipComment beg) as [|x beg'] eqn:E.
  - simpl. rewrite Z.add_0_r. reflexivity.
  - pose proof (skipComment_head _ _ _ E) as Hx.
    simpl in Hsk. simpl run_rest. simpl run_count. rewrite Hx. simpl.
    destruct (Ascii.eqb x ch).
    + rewrite size_t_wrap_succ. rewrite IH by lia.
      f_equal. f_equal. f_equal. lia.
    + rewrite Z.add_0_r. reflexivity.
Qed.

Lemma generateSourceCode_loop_app fuel : forall beg acc,
  generateSourceCode_loop fuel beg acc =
  option_map (app acc) (generateSourceCode_loop fuel beg []).
Proof.
  induction fuel as [|fuel IH]; intros beg acc.
  - destruct beg; simpl; [rewrite app_nil_r|]; reflexivity.
  - destruct beg as [|ch beg']; [simpl; rewrite app_nil_r; reflexivity|].
    cbn [generateSourceCode_loop].
    assert (Hmap : forall (l : list Command) o,
      option_map (app acc) (option_map (app l) o) = option_map (app (acc ++ l)) o).
    { intros l [P|]; simpl; [rewrite app_assoc|]; reflexivity. }
    destruct (isLoopCommand ch).
    + rewrite (IH beg' (acc ++ _)), (IH beg' ([] ++ _)). rewrite app_nil_l. symmetry. apply Hmap.
    + destruct (isCommand ch).
      * destruct (accumulate _ ch (ch :: beg') 0) as [[beg'' cnt]|]; [|reflexivity].
        rewrite (IH beg'' (acc ++ _)), (IH beg'' ([] ++ _)). rewrite app_nil_l. symmetry. apply Hmap.
      * rewrite (IH beg' (acc ++ _)), (IH beg' ([] ++ _)). rewrite app_nil_l. symmetry. apply Hmap.
Qed.

(** The outer loop needs no more iterations than there are characters, and
    any larger fuel gives the same vector. *)
Lemma generateSourceCode_loop_fuel fuel : forall beg,
  (length beg <= fuel)%nat ->
  exists P, generateSourceCode_loop fuel beg [] = Some P /\
            generateSourceCode beg = Some P.
Proof.
  induction fuel as [fuel IH] using (well_founded_induction Wf_nat.lt_wf).
  intros beg Hlen. unfold generateSourceCode.
  destruct beg as [|ch beg']; [exists []; destruct fuel; simpl; auto|].
  destruct fuel as [|fuel]; [simpl in Hlen; lia|].
  simpl in Hlen. cbn [generateSourceCode_loop length].
  destruct (isLoopCommand ch).
  - rewrite (generateSourceCode_loop_app fuel), (generateSourceCode_loop_app (length beg')).
    destruct (IH fuel ltac:(lia) beg' ltac:(lia)) as (P & -> & HP).
    unfold generateSourceCode in HP. rewrite HP. simpl. eauto.
  - destruct (isCommand ch) eqn:Hch.
    + pose proof (accumulate_run (S (S (length beg'))) ch (ch :: beg') 0) as Hacc.
      change (size_t_wrap 0) with 0 in Hacc. rewrite Hacc by (simpl; lia).
      pose proof (run_rest_length ch (ch :: beg')) as Hr.
      simpl in Hr. rewrite Hch in Hr. simpl in Hr. rewrite Ascii.eqb_refl in Hr.
      pose proof (run_rest_length ch beg') as Hr'.
      rewrite (generateSourceCode_loop_app fuel), (generateSourceCode_loop_app (length beg')).
      destruct (IH fuel ltac:(lia) (run_rest ch (ch :: beg'))) as (P & -> & HP).
      { simpl. rewrite Hch. simpl. rewrite Ascii.eqb_refl. lia. }
      destruct (IH (length beg') ltac:(lia) (run_rest ch (ch :: beg'))) as (P' & -> & HP').
      { simpl. rewrite Hch. simpl. rewrite Ascii.eqb_refl. lia. }
      rewrite HP in HP'. injection HP' as <-. simpl. eauto.
    + rewrite (generateSourceCode_loop_app fuel), (generateSourceCode_loop_app (length beg')).
      destruct (IH fuel ltac:(lia) beg' ltac:(lia)) as (P & -> & HP).
      unfold generateSourceCode in HP. rewrite HP. simpl. eauto.
Qed.

Lemma generateSourceCode_total beg :
  generateSourceCode beg = Some (program_of beg).
Proof.
  destruct (generateSourceCode_loop_fuel (length beg) beg (le_n _)) as (P & _ & HP).
  unfold program_of. rewrite HP. reflexivity.
Qed.

(** ** The equations of the compiler, one per branch of the outer loop *)

Lemma program_of_step fuel cmd rest :
  (length rest <= fuel)%nat ->
  generateSourceCode_loop fuel rest ([] ++ [cmd]) =
    Some (cmd :: program_of rest).
Proof.
  intros Hlen. rewrite generateSourceCode_loop_app, app_nil_l.
  destruct (generateSourceCode_loop_fuel fuel rest Hlen) as (P & -> & HP).
  rewrite generateSourceCode_total in HP. injection HP as ->. reflexivity.
Qed.

Lemma program_of_loop ch beg' :
  isLoopCommand ch = true ->
  program_of (ch :: beg') = mkCommand ch 1 :: program_of beg'.
Proof.
  intros Hl. unfold program_of at 1, generateSourceCode.
  cbn [generateSourceCode_loop length]. rewrite Hl.
  rewrite program_of_step by lia. reflexivity.
Qed.

Lemma program_of_comment ch beg' :
  isCommand ch = false ->
  program_of (ch :: beg') = mkCommand ch 0 :: program_of beg'.
Proof.
  intros Hc. unfold program_of at 1, generateSourceCode.
  cbn [generateSourceCode_loop length].
  destruct (isLoopCommand ch) eqn:Hl.
  - apply isLoopCommand_isCommand in Hl. congruence.
  - rewrite Hc. rewrite program_of_step by lia. reflexivity.
Qed.

Lemma program_of_run ch beg' :
  isCommand ch = true -> isLoopCommand ch = false ->
  program_of (ch :: beg') =
  mkCommand ch (size_t_wrap (Z.of_nat (S (run_count ch beg'))))
    :: program_of (run_rest ch beg').
Proof.
  intros Hc Hl. unfold program_of at 1, generateSourceCode.
  cbn [generateSourceCode_loop length]. rewrite Hl, Hc.
  pose proof (accumulate_run (S (S (length beg'))) ch (ch :: beg') 0) as Hacc.
  change (size_t_wrap 0) with 0 in Hacc. rewrite Hacc by (simpl; lia).
  simpl run_rest. simpl run_count. rewrite Hc, Ascii.eqb_refl. simpl negb. cbv iota.
  rewrite program_of_step by apply run_rest_length.
  rewrite Z.add_0_l. reflexivity.
Qed.

(** ** Runs and concatenation *)

Lemma run_rest_app ch t : forall r,
  run_rest ch r <> [] ->
  run_rest ch (r ++ t) = run_rest ch r ++ t /\
  run_count ch (r ++ t) = run_count ch r.
Proof.
  induction r as [|x r IH]; simpl; intros H; [congruence|].
  destruct (isCommand x); simpl in *; [|auto].
  destruct (Ascii.eqb x ch); [|auto].
  destruct (IH H) as [-> ->]. auto.
Qed.

Lemma run_rest_app_nil ch d s : forall r,
  run_rest ch r = [] -> isCommand d = true -> d <> ch ->
  run_rest ch (r ++ d :: s) = d :: s /\
  run_count ch (r ++ d :: s) = run_count ch r.
Proof.
  intros r H Hd Hne. apply Ascii.eqb_neq in Hne.
  induction r as [|x r IH]; simpl in *.
  - rewrite Hd, Hne. auto.
  - destruct (isCommand x); simpl in *; [|auto].
    destruct (Ascii.eqb x ch); [|discriminate].
    destruct (IH H) as [-> ->]. auto.
Qed.

Lemma run_rest_nil_last ch : forall r,
  run_rest ch r = [] -> last_command r = None \/ last_command r = Some ch.
Proof.
  induction r as [|x r IH]; simpl; intros H; [auto|].
  destruct (isCommand x) eqn:Hx; simpl in H.
  - destruct (Ascii.eqb x ch) eqn:E; [|discriminate].
    apply Ascii.eqb_eq in E. subst x.
    destruct (IH H) as [-> | ->]; auto.
  - destruct (IH H) as [-> | ->]; auto.
Qed.

Lemma run_rest_last ch : forall r,
  run_rest ch r <> [] ->
  last_command (run_rest ch r) = last_command r /\ last_command r <> None.
Proof.
  induction r as [|x r IH]; simpl; intros H; [congruence|].
  destruct (isCommand x) eqn:Hx; simpl in *.
  - destruct (Ascii.eqb x ch) eqn:E.
    + destruct (IH H) as [-> Hn]. destruct (last_command r); [split; congruence | congruence].
    + simpl. rewrite Hx. split; [reflexivity|]. destruct (last_command r); congruence.
  - destruct (IH H) as [-> Hn]. destruct (last_command r); [split; congruence | congruence].
Qed.

(** Compilation distributes over a cut in front of an operator character
    unless the cut falls inside a run of that very operator. *)
Lemma program_of_app d s : forall pre,
  isCommand d = true ->
  isLoopCommand d = true \/ last_command pre <> Some d ->
  program_of (pre ++ d :: s) = program_of pre ++ program_of (d :: s).
Proof.
  intros pre Hd.
  remember (length pre) as n eqn:Hn. revert pre Hn.
  induction n as [n IH] using (well_founded_induction Wf_nat.lt_wf).
  intros [|ch r] Hn Hcut; [reflexivity|]. subst n. simpl length in IH.
  rewrite <- app_comm_cons.
  assert (Hr : isLoopCommand d = true \/ last_command r <> Some d).
  { destruct Hcut as [?|Hcut]; [auto|right]. simpl in Hcut.
    destruct (last_command r); congruence. }
  destruct (isLoopCommand ch) eqn:Hl.
  - rewrite !program_of_loop by assumption.
    rewrite (IH (length r)) by (auto; lia). reflexivity.
  - destruct (isCommand ch) eqn:Hc.
    + rewrite !program_of_run by assumption.
      destruct (run_rest ch r) as [|x r'] eqn:Hrest.
      * assert (Hne : d <> ch).
        { intros ->. destruct Hcut as [Hcut|Hcut]; [congruence|].
          apply Hcut. simpl. rewrite Hc.
          destruct (run_rest_nil_last ch r Hrest) as [-> | ->]; reflexivity. }
        destruct (run_rest_app_nil ch d s r Hrest Hd Hne) as [-> ->].
        reflexivity.
      * assert (Hnn : run_rest ch r <> []) by (rewrite Hrest; discriminate).
        destruct (run_rest_app ch (d :: s) r Hnn) as [-> ->].
        destruct (run_rest_last ch r Hnn) as [Hlast Hsome].
        pose proof (run_rest_length ch r) as Hlen.
        rewrite (IH (length (run_rest ch r))); [rewrite Hrest; reflexivity|lia|reflexivity|].
        rewrite Hlast. exact Hr.
    + rewrite !program_of_comment by assumption.
      rewrite (IH (length r)) by (auto; lia). reflexivity.
Qed.

Lemma run_of_repeats c rest : forall run,
  isCommand c = true ->
  Forall (fun x => x = c \/ isCommand x = false) run ->
  match rest with
  | [] => True
  | d :: _ => isCommand d = true /\ d <> c
  end ->
  run_rest c (run ++ rest) = rest /\
  run_count c (run ++ rest) = count_occ ascii_dec run c.
Proof.
  intros run Hc Hrun Hrest.
  induction Hrun as [|x run Hx Hrun IH]; simpl.
  - destruct rest as [|d rest']; [auto|]. destruct Hrest as [Hd Hne].
    apply Ascii.eqb_neq in Hne. simpl. rewrite Hd, Hne. auto.
  - destruct IH as [IH1 IH2]. destruct Hx as [-> | Hx].
    + rewrite Hc, Ascii.eqb_refl. simpl.
      destruct (ascii_dec c c); [|congruence]. auto.
    + rewrite Hx. simpl.
      destruct (ascii_dec x c) as [-> |]; [congruence|]. auto.
Qed.

(** * The claims about compilation *)

(** C2. A maximal run of a non-loop operator [c] (its first occurrence
    followed by further occurrences of [c] and by comment characters, [N]
    occurrences in all, [N] below 2^64) compiles to the single Command
    [(c, N)], placed between what the text before the run and the text after
    it compile to; and every bracket compiles to a Command of its own with
    count 1, whatever stands next to it. *)
Theorem compile_runs_and_brackets :
  (forall pre c run rest N,
      isCommand c = true -> isLoopCommand c = false ->
      Forall (fun x => x = c \/ isCommand x = false) run ->
      N = S (count_occ ascii_dec run c) ->
      Z.of_nat N < size_t_modulus ->
      last_command pre <> Some c ->
      match rest with
      | [] => True
      | d :: _ => isCommand d = true /\ d <> c
      end ->
      exists P1 P2,
        generateSourceCode pre = Some P1 /\
        generateSourceCode rest = Some P2 /\
        generateSourceCode (pre ++ c :: run ++ rest) =
          Some (P1 ++ mkCommand c (Z.of_nat N) :: P2)) /\
  (forall pre b rest,
      isLoopCommand b = true ->
      exists P1 P2,
        generateSourceCode pre = Some P1 /\
        generateSourceCode rest = Some P2 /\
        generateSourceCode (pre ++ b :: rest) =
          Some (P1 ++ mkCommand b 1 :: P2)).
Proof.
  split.
  - intros pre c run rest N Hc Hl Hrun HN Hsmall Hpre Hrest.
    exists (program_of pre), (program_of rest).
    rewrite !generateSourceCode_total. repeat split. f_equal.
    rewrite program_of_app by auto.
    rewrite program_of_run by assumption.
    destruct (run_of_repeats c rest run Hc Hrun Hrest) as [-> ->].
    rewrite <- HN. rewrite size_t_wrap_small by lia. reflexivity.
  - intros pre b rest Hb.
    exists (program_of pre), (program_of rest).
    rewrite !generateSourceCode_total. repeat split. f_equal.
    rewrite program_of_app by auto using isLoopCommand_isCommand.
    rewrite program_of_loop by assumption. reflexivity.
Qed.

Lemma compile_runs_and_brackets_witness :
  generateSourceCode (chars "[" ++ "+"%char :: chars "a+b" ++ chars "-]") =
    Some ([mkCommand "[" 1] ++ mkCommand "+" 2
            :: [mkCommand "-" 1; mkCommand "]" 1]) /\
  generateSourceCode (chars "+[" ++ "["%char :: chars "[]") =
    Some ([mkCommand "+" 1; mkCommand "[" 1] ++ mkCommand "[" 1
            :: [mkCommand "[" 1; mkCommand "]" 1]).
Proof.
  split.
  - destruct (proj1 compile_runs_and_brackets
                (chars "[") "+"%char (chars "a+b") (chars "-]") 2%nat)
      as (P1 & P2 & H1 & H2 & H).
    + reflexivity.
    + reflexivity.
    + repeat first [ apply Forall_nil
                   | apply Forall_cons;
                     [first [left; reflexivity | right; reflexivity]|] ].
    + reflexivity.
    + reflexivity.
    + discriminate.
    + split; [reflexivity | discriminate].
    + vm_compute in H1, H2. injection H1 as <-. injection H2 as <-. exact H.
  - destruct (proj2 compile_runs_and_brackets
                (chars "+[") "["%char (chars "[]"))
      as (P1 & P2 & H1 & H2 & H).
    + reflexivity.
    + vm_compute in H1, H2. injection H1 as <-. injection H2 as <-. exact H.
Defined.

(** C1. The text [a] holds no operator character, yet it compiles to a
    vector of one Command, [('a', 0)]: the comment branch of
    [generateSourceCode] falls through to [emplace_back].  The execution
    loop then needs one iteration, in which [interpret] reports a comment,
    before it is left with nothing written. *)
Theorem comment_byte_compiles_to_a_command :
  isCommand "a" = false /\
  sourceCode_of "a" = Some [mkCommand "a" 0] /\
  interpret (mkCommand "a" 0) (mkPointer [0] 0) (mkIO (mkIstream [] false) []) =
    Ok (false, mkPointer [0] 0, mkIO (mkIstream [] false) []) /\
  main 0 "a" [] = None /\
  main 1 "a" [] =
    Some (Ok (mkState 1 [] (mkPointer [0] 0) (mkIO (mkIstream [] false) []))).
Proof. repeat split. Qed.

(** C7. The Command compiled from the comment byte [a] carries the count 0. *)
Theorem comment_command_has_count_zero :
  exists com,
    sourceCode_of "a" = Some [com] /\
    isCommand (command com) = false /\
    count com = 0.
Proof. exists (mkCommand "a" 0). repeat split. Qed.

(** C8. The vector compiled from the text [[a]] is written back as [[]],
    which compiles to a shorter vector. *)
Theorem recompiling_loses_comment_commands :
  generateSourceCode (chars "[a]") =
    Some [mkCommand "[" 1; mkCommand "a" 0; mkCommand "]" 1] /\
  serialize [mkCommand "[" 1; mkCommand "a" 0; mkCommand "]" 1] = chars "[]" /\
  generateSourceCode (chars "[]") = Some [mkCommand "[" 1; mkCommand "]" 1].
Proof. repeat split. Qed.

(** ** What does hold of compiled vectors

    Texts of fewer than 2^64 characters are considered, so that no counter
    of [generateSourceCode] wraps around. *)

Lemma run_count_le ch : forall r, (run_count ch r <= length r)%nat.
Proof.
  induction r as [|x r IH]; simpl; [lia|].
  destruct (isCommand x); simpl; [|lia].
  destruct (Ascii.eqb x ch); lia.
Qed.

Lemma run_rest_head ch : forall r,
  match run_rest ch r with
  | [] => True
  | d :: _ => isCommand d = true /\ d <> ch
  end.
Proof.
  induction r as [|x r IH]; simpl; [exact I|].
  destruct (isCommand x) eqn:Hx; simpl; [|exact IH].
  destruct (Ascii.eqb x ch) eqn:E; [exact IH|].
  split; [exact Hx | apply Ascii.eqb_neq; exact E].
Qed.

(** X6. In the vector compiled from a text shorter than 2^64 characters,
    brackets carry count 1, the other operators a positive count, and the
    Commands emitted for comment characters count 0. *)
Lemma compiled_counts : forall src,
  Z.of_nat (length src) < size_t_modulus ->
  Forall (fun com =>
            if isLoopCommand (command com) then count com = 1
            else if isCommand (command com) then 1 <= count com
            else count com = 0)
         (program_of src).
Proof.
  intros src. remember (length src) as n eqn:Hn. revert src Hn.
  induction n as [n IH] using (well_founded_induction Wf_nat.lt_wf).
  intros [|ch r] Hn Hsmall; [constructor|]. subst n. simpl length in *.
  destruct (isLoopCommand ch) eqn:Hl.
  - rewrite program_of_loop by exact Hl. constructor.
    + simpl. rewrite Hl. reflexivity.
    + apply (IH (length r)); [lia | reflexivity | lia].
  - destruct (isCommand ch) eqn:Hc.
    + rewrite program_of_run by assumption.
      pose proof (run_count_le ch r) as Hcount.
      pose proof (run_rest_length ch r) as Hrest.
      constructor.
      * simpl. rewrite Hl, Hc. rewrite size_t_wrap_small by lia. lia.
      * apply (IH (length (run_rest ch r))); [lia | reflexivity | lia].
    + rewrite program_of_comment by exact Hc. constructor.
      * simpl. rewrite Hl, Hc. reflexivity.
      * apply (IH (length r)); [lia | reflexivity | lia].
Qed.

Lemma serialize_cons com source_code :
  serialize (com :: source_code) =
  repeat (command com) (Z.to_nat (count com)) ++ serialize source_code.
Proof. reflexivity. Qed.

Lemma serialize_program_head d t :
  isCommand d = true ->
  Z.of_nat (length (d :: t)) < size_t_modulus ->
  exists t', serialize (program_of (d :: t)) = d :: t'.
Proof.
  intros Hd Hsmall. simpl length in Hsmall.
  destruct (isLoopCommand d) eqn:Hl.
  - rewrite program_of_loop by exact Hl. rewrite serialize_cons. simpl. eauto.
  - rewrite program_of_run by assumption. rewrite serialize_cons.
    pose proof (run_count_le d t) as Hcount.
    rewrite size_t_wrap_small by lia. cbn [command count].
    rewrite Nat2Z.id. simpl. eauto.
Qed.

(** Writing a compiled vector back as text and compiling that text gives the
    vector without its comment Commands. *)
Lemma recompile_serialized : forall src,
  Z.of_nat (length src) < size_t_modulus ->
  generateSourceCode (serialize (program_of src)) =
    Some (strip (program_of src)).
Proof.
  intros src Hsmall. rewrite generateSourceCode_total. f_equal.
  remember (length src) as n eqn:Hn. revert src Hn Hsmall.
  induction n as [n IH] using (well_founded_induction Wf_nat.lt_wf).
  intros [|ch r] Hn Hsmall; [reflexivity|]. subst n. simpl length in *.
  destruct (isLoopCommand ch) eqn:Hl.
  - rewrite program_of_loop by exact Hl. rewrite serialize_cons.
    unfold strip. cbn [filter command count].
    rewrite (isLoopCommand_isCommand _ Hl). fold (strip (program_of r)).
    simpl. rewrite program_of_loop by exact Hl.
    rewrite (IH (length r)) by (reflexivity || lia). reflexivity.
  - destruct (isCommand ch) eqn:Hc.
    + rewrite program_of_run by assumption. rewrite serialize_cons.
      pose proof (run_count_le ch r) as Hcount.
      pose proof (run_rest_length ch r) as Hrest.
      pose proof (run_rest_head ch r) as Hhead.
      rewrite (size_t_wrap_small (Z.of_nat (S (run_count ch r)))) by lia.
      unfold strip. cbn [filter command count]. rewrite Hc.
      fold (strip (program_of (run_rest ch r))).
      rewrite Nat2Z.id. cbn [repeat app].
      rewrite program_of_run by assumption.
      assert (Hnext : match serialize (program_of (run_rest ch r)) with
                      | [] => True
                      | d :: _ => isCommand d = true /\ d <> ch
                      end).
      { destruct (run_rest ch r) as [|d t] eqn:Er; [exact I|].
        destruct Hhead as [Hd Hne].
        destruct (serialize_program_head d t Hd) as [t' ->]; [simpl in *; lia|].
        auto. }
      destruct (run_of_repeats ch _ (repeat ch (run_count ch r)) Hc
                  ltac:(apply Forall_forall; intros x Hx;
                        apply repeat_spec in Hx; auto) Hnext) as [-> ->].
      rewrite count_occ_repeat_eq by reflexivity.
      rewrite (size_t_wrap_small (Z.of_nat (S (run_count ch r)))) by lia.
      rewrite (IH (length (run_rest ch r))) by (reflexivity || lia).
      reflexivity.
    + rewrite program_of_comment by exact Hc. rewrite serialize_cons.
      unfold strip. cbn [filter command count repeat Z.to_nat app]. rewrite Hc.
      fold (strip (program_of r)).
      apply (IH (length r)); [lia | reflexivity | lia].
Qed.

(** * Properties of the execution engine *)

Lemma set_nth_length v : forall mem n, length (set_nth n v mem) = length mem.
Proof.
  induction mem as [|x mem IH]; intros [|n]; simpl; auto.
Qed.

Lemma set_nth_same v : forall mem n x,
  nth_error mem n = Some x -> nth_error (set_nth n v mem) n = Some v.
Proof.
  induction mem as [|y mem IH]; intros [|n] x; simpl; try discriminate; eauto.
Qed.

Lemma deref_assign p v x : deref p = Ok v -> deref (assign p x) = Ok x.
Proof.
  unfold deref, assign, mem_size. simpl. rewrite set_nth_length.
  destruct (Z.of_nat (length (mem_ p)) >? index_ p); [|discriminate].
  destruct (nth_error (mem_ p) (Z.to_nat (index_ p))) as [y|] eqn:E; [|discriminate].
  intros _. rewrite (set_nth_same _ _ _ _ E). reflexivity.
Qed.

Lemma operation_plus v n : operation "+" v n = (v + n) mod 256.
Proof.
  unfold operation, char_cast, char_modulus. simpl.
  apply Z.add_mod_idemp_r. discriminate.
Qed.

Lemma operation_minus v n : operation "-" v n = (v - n) mod 256.
Proof.
  unfold operation, char_cast, char_modulus. simpl.
  apply Zminus_mod_idemp_r.
Qed.

(** C6. On a Cell holding [v], an Increment with count [n] succeeds and
    stores [(v + n) mod 256], a Decrement stores [(v - n) mod 256]; the
    cursor and the streams are untouched.  So 255 incremented once is 0 and
    0 decremented once is 255. *)
Theorem cell_arithmetic_wraps (p : Pointer) (io0 : IO) (v n : Z) :
  deref p = Ok v ->
  (interpret (mkCommand CellValIncr n) p io0 =
     Ok (true, assign p ((v + n) mod 256), io0) /\
   deref (assign p ((v + n) mod 256)) = Ok ((v + n) mod 256)) /\
  (interpret (mkCommand CellValDecr n) p io0 =
     Ok (true, assign p ((v - n) mod 256), io0) /\
   deref (assign p ((v - n) mod 256)) = Ok ((v - n) mod 256)) /\
  (v = 255 ->
   interpret (mkCommand CellValIncr 1) p io0 = Ok (true, assign p 0, io0)) /\
  (v = 0 ->
   interpret (mkCommand CellValDecr 1) p io0 = Ok (true, assign p 255, io0)).
Proof.
  intros Hv.
  assert (Hinc : forall m, interpret (mkCommand CellValIncr m) p io0 =
                           Ok (true, assign p ((v + m) mod 256), io0)).
  { intros m. unfold interpret. simpl. rewrite Hv. simpl.
    rewrite operation_plus. reflexivity. }
  assert (Hdec : forall m, interpret (mkCommand CellValDecr m) p io0 =
                           Ok (true, assign p ((v - m) mod 256), io0)).
  { intros m. unfold interpret. simpl. rewrite Hv. simpl.
    rewrite operation_minus. reflexivity. }
  repeat split.
  - apply Hinc.
  - eapply deref_assign; eassumption.
  - apply Hdec.
  - eapply deref_assign; eassumption.
  - intros ->. rewrite Hinc. reflexivity.
  - intros ->. rewrite Hdec. reflexivity.
Qed.

Lemma cell_arithmetic_wraps_witness :
  interpret (mkCommand CellValIncr 1) (mkPointer [7; 255] 1)
            (mkIO (mkIstream [] false) []) =
    Ok (true, mkPointer [7; 0] 1, mkIO (mkIstream [] false) []).
Proof.
  exact (proj1 (proj2 (proj2
           (cell_arithmetic_wraps (mkPointer [7; 255] 1)
              (mkIO (mkIstream [] false) []) 255 1 eq_refl)))
           eq_refl).
Defined.

(** ** Input at end of stream *)

Lemma extract_char_exhausted s :
  exhausted s ->
  exists s', extract_char s = (s', None) /\ exhausted s'.
Proof.
  intros Hs. unfold extract_char.
  destruct (in_fail s) eqn:Hf.
  - exists s. split; [reflexivity | left; exact Hf].
  - destruct Hs as [Hs | Hs]; [congruence|]. rewrite Hs.
    eexists. split; [reflexivity | left; reflexivity].
Qed.

Lemma cin_loop_exhausted p v : forall n s,
  deref p = Ok v -> exhausted s ->
  exists s', cin_loop n p s = Ok (p, s') /\ exhausted s'.
Proof.
  induction n as [|n IH]; intros s Hv Hs; simpl.
  - eauto.
  - rewrite Hv. simpl.
    destruct (extract_char_exhausted s Hs) as (s1 & -> & Hs1).
    apply IH; assumption.
Qed.

(** C9. When nothing is left to read, an Input instruction (whatever its
    count) leaves the tape as it is, aborts nothing, and moves the running
    cursor on by one; the stack and the output are untouched and the input
    stays exhausted. *)
Theorem input_at_end_of_stream (sourceCode : list Command) (s : State)
    (com : Command) (v : Z) :
  nth_error sourceCode (it s) = Some com ->
  command com = Cin ->
  deref (ptr s) = Ok v ->
  exhausted (cin (io s)) ->
  exists cin',
    step sourceCode s =
      Ok (mkState (S (it s)) (loopPos s) (ptr s) (mkIO cin' (cout (io s)))) /\
    exhausted cin' /\
    deref (ptr s) = Ok v.
Proof.
  intros Hcom Hch Hv Hin.
  destruct (cin_loop_exhausted (ptr s) v (Z.to_nat (count com)) _ Hv Hin)
    as (cin' & Hloop & Hin').
  exists cin'. repeat split; [|assumption|assumption].
  unfold step. rewrite Hcom. unfold Command_eq, interpret. rewrite Hch. simpl.
  rewrite Hloop. reflexivity.
Qed.

Lemma input_at_end_of_stream_witness :
  exists cin',
    step [mkCommand "," 3]
         (mkState 0 [] (mkPointer [42] 0) (mkIO (mkIstream [" "%char] false) [])) =
      Ok (mkState 1 [] (mkPointer [42] 0) (mkIO cin' [])) /\
    exhausted cin' /\
    deref (mkPointer [42] 0) = Ok 42.
Proof.
  apply (input_at_end_of_stream [mkCommand "," 3]
           (mkState 0 [] (mkPointer [42] 0) (mkIO (mkIstream [" "%char] false) []))
           (mkCommand "," 3) 42).
  - reflexivity.
  - reflexivity.
  - reflexivity.
  - right. reflexivity.
Defined.

(** ** Loop exit and re-entry *)

Lemma LoopEnd_not_LoopBegin com :
  Command_eq com LoopEnd = true -> Command_eq com LoopBegin = false.
Proof.
  unfold Command_eq. intros H. apply Ascii.eqb_eq in H. rewrite H. reflexivity.
Qed.

(** C4. At a LoopClose with a non-empty stack the engine pops the top
    position and makes it the running cursor, without advancing.  The
    next iteration therefore tests the Cell at that LoopOpen again: a
    non-zero Cell pushes the position back and advances by 1, a zero Cell
    leaves the loop through [skipLoop]. *)
Theorem loop_close_returns_to_loop_open (sourceCode : list Command)
    (s : State) (com : Command) (top : nat) (loopPos' : list nat) :
  nth_error sourceCode (it s) = Some com ->
  Command_eq com LoopEnd = true ->
  loopPos s = top :: loopPos' ->
  step sourceCode s = Ok (mkState top loopPos' (ptr s) (io s)) /\
  (forall com' v,
      nth_error sourceCode top = Some com' ->
      Command_eq com' LoopBegin = true ->
      deref (ptr s) = Ok v ->
      (v <> 0 ->
       step sourceCode (mkState top loopPos' (ptr s) (io s)) =
         Ok (mkState (S top) (top :: loopPos') (ptr s) (io s))) /\
      (v = 0 ->
       step sourceCode (mkState top loopPos' (ptr s) (io s)) =
         (it' <- skipLoop sourceCode top ;;
          Ok (mkState (S it') loopPos' (ptr s) (io s))))).
Proof.
  intros Hcom Hend Hstack. split.
  - unfold step. rewrite Hcom, (LoopEnd_not_LoopBegin _ Hend), Hend, Hstack.
    reflexivity.
  - intros com' v Hcom' Hbegin Hv. unfold step. simpl.
    rewrite Hcom', Hbegin, Hv. simpl. split.
    + intros Hnz. apply Z.eqb_neq in Hnz. rewrite Hnz. reflexivity.
    + intros ->. reflexivity.
Qed.

Lemma loop_close_returns_to_loop_open_witness :
  step [mkCommand "[" 1; mkCommand "-" 1; mkCommand "]" 1]
       (mkState 2 [0%nat] (mkPointer [5] 0) (mkIO (mkIstream [] false) [])) =
    Ok (mkState 0 [] (mkPointer [5] 0) (mkIO (mkIstream [] false) [])) /\
  step [mkCommand "[" 1; mkCommand "-" 1; mkCommand "]" 1]
       (mkState 0 [] (mkPointer [5] 0) (mkIO (mkIstream [] false) [])) =
    Ok (mkState 1 [0%nat] (mkPointer [5] 0) (mkIO (mkIstream [] false) [])).
Proof.
  destruct (loop_close_returns_to_loop_open
              [mkCommand "[" 1; mkCommand "-" 1; mkCommand "]" 1]
              (mkState 2 [0%nat] (mkPointer [5] 0) (mkIO (mkIstream [] false) []))
              (mkCommand "]" 1) 0%nat [] eq_refl eq_refl eq_refl) as [H1 H2].
  split; [exact H1|].
  destruct (H2 (mkCommand "[" 1) 5 eq_refl eq_refl eq_refl) as [H3 _].
  apply H3. discriminate.
Defined.

(** ** The forward scan of skipLoop *)

Lemma LoopBegin_not_LoopEnd com :
  Command_eq com LoopBegin = true -> Command_eq com LoopEnd = false.
Proof.
  unfold Command_eq. intros H. apply Ascii.eqb_eq in H. rewrite H. reflexivity.
Qed.

(** A properly nested stretch is passed with the counter back at the value
    it had on entry, provided the counter is positive there. *)
Lemma skipLoop_scan_balanced body :
  balanced body ->
  forall rest p k,
    1 <= k -> k + Z.of_nat (length body) < size_t_modulus ->
    skipLoop_scan (body ++ rest) p k = skipLoop_scan rest (p + length body) k.
Proof.
  induction 1 as [|com l Hb He Hl IHl|o body c l Ho Hc Hbody IHbody Hl IHl];
    intros rest p k Hk Hsmall.
  - simpl. rewrite Nat.add_0_r. reflexivity.
  - simpl length in *. simpl. rewrite Hb, He.
    replace (k =? 0) with false by (symmetry; apply Z.eqb_neq; lia). simpl.
    rewrite IHl by lia. f_equal. lia.
  - simpl length in *. rewrite length_app in *. simpl length in *.
    simpl. rewrite Ho.
    rewrite (size_t_wrap_small (k + 1)) by lia.
    replace (k + 1 =? 0) with false by (symmetry; apply Z.eqb_neq; lia). simpl.
    rewrite <- app_assoc. rewrite IHbody by lia.
    simpl. rewrite (LoopEnd_not_LoopBegin _ Hc), Hc.
    replace (k + 1 - 1) with k by lia. rewrite (size_t_wrap_small k) by lia.
    replace (k =? 0) with false by (symmetry; apply Z.eqb_neq; lia). simpl.
    rewrite IHl by lia. f_equal. lia.
Qed.

Lemma skipLoop_matching pre o body c post :
  Command_eq o LoopBegin = true ->
  Command_eq c LoopEnd = true ->
  balanced body ->
  Z.of_nat (length body) + 1 < size_t_modulus ->
  skipLoop (pre ++ o :: body ++ c :: post) (length pre) =
    Ok (length pre + 1 + length body)%nat.
Proof.
  intros Ho Hc Hbody Hsmall. unfold skipLoop.
  rewrite nth_error_app2 by lia. rewrite Nat.sub_diag. simpl nth_error. cbv iota.
  rewrite Ho.
  rewrite skipn_app, skipn_all, Nat.sub_diag. simpl.
  rewrite Ho. change (size_t_wrap 1) with 1. simpl.
  rewrite skipLoop_scan_balanced by (assumption || lia).
  simpl. rewrite (LoopEnd_not_LoopBegin _ Hc), Hc. simpl.
  f_equal. lia.
Qed.

(** C3. In [pre ++ o :: body ++ c :: post], where [o] is a LoopOpen, [c] a
    LoopClose and [body] is properly nested (and shorter than 2^64 - 1),
    [skipLoop] at the position of [o] returns the position of [c]; and the
    engine, meeting [o] with the current Cell equal to 0, continues at the
    position just past [c] with stack, tape and streams unchanged. *)
Theorem skip_loop_finds_matching_close (pre body post : list Command)
    (o c : Command) (s : State) :
  Command_eq o LoopBegin = true ->
  Command_eq c LoopEnd = true ->
  balanced body ->
  Z.of_nat (length body) + 1 < size_t_modulus ->
  it s = length pre ->
  deref (ptr s) = Ok 0 ->
  nth_error (pre ++ o :: body ++ c :: post) (length pre + 1 + length body) = Some c /\
  skipLoop (pre ++ o :: body ++ c :: post) (length pre) =
    Ok (length pre + 1 + length body)%nat /\
  step (pre ++ o :: body ++ c :: post) s =
    Ok (mkState (S (length pre + 1 + length body)) (loopPos s) (ptr s) (io s)).
Proof.
  intros Ho Hc Hbody Hsmall Hit Hcell.
  pose proof (skipLoop_matching pre o body c post Ho Hc Hbody Hsmall) as Hskip.
  repeat split.
  - rewrite nth_error_app2 by lia.
    replace (length pre + 1 + length body - length pre)%nat
      with (S (length body)) by lia.
    simpl. rewrite nth_error_app2 by lia. rewrite Nat.sub_diag. reflexivity.
  - exact Hskip.
  - unfold step. rewrite Hit.
    rewrite nth_error_app2 by lia. rewrite Nat.sub_diag. simpl nth_error.
    cbv iota. rewrite Ho, Hcell. simpl. rewrite Hskip. reflexivity.
Qed.

Lemma skip_loop_finds_matching_close_witness :
  skipLoop (chars_program "+[[-]>[x]]<.") 1 = Ok 9%nat /\
  step (chars_program "+[[-]>[x]]<.")
       (mkState 1 [] (mkPointer [0] 0) (mkIO (mkIstream [] false) [])) =
    Ok (mkState 10 [] (mkPointer [0] 0) (mkIO (mkIstream [] false) [])).
Proof.
  destruct (skip_loop_finds_matching_close
              [mkCommand "+" 1]
              [mkCommand "[" 1; mkCommand "-" 1; mkCommand "]" 1;
               mkCommand ">" 1;
               mkCommand "[" 1; mkCommand "x" 0; mkCommand "]" 1]
              [mkCommand "<" 1; mkCommand "." 1]
              (mkCommand "[" 1) (mkCommand "]" 1)
              (mkState 1 [] (mkPointer [0] 0) (mkIO (mkIstream [] false) [])))
    as (_ & H1 & H2).
  - reflexivity.
  - reflexivity.
  - apply (balanced_nest (mkCommand "[" 1) [mkCommand "-" 1] (mkCommand "]" 1));
      [reflexivity | reflexivity | |].
    + apply balanced_plain; [reflexivity | reflexivity | apply balanced_nil].
    + apply balanced_plain; [reflexivity | reflexivity |].
      apply (balanced_nest (mkCommand "[" 1) [mkCommand "x" 0] (mkCommand "]" 1) []);
        [reflexivity | reflexivity | | apply balanced_nil].
      apply balanced_plain; [reflexivity | reflexivity | apply balanced_nil].
  - reflexivity.
  - reflexivity.
  - reflexivity.
  - split; [exact H1 | exact H2].
Defined.

(** C5. The text [++++++++[>++++++++<-]>+.] compiles, and its execution
    from the fresh tape with nothing on standard input leaves the loop of
    [main] within 58 iterations, having written the single byte 65. *)
Theorem prints_capital_A :
  exists sourceCode s,
    sourceCode_of "++++++++[>++++++++<-]>+." = Some sourceCode /\
    main 58 "++++++++[>++++++++<-]>+." [] = Some (Ok s) /\
    it s = length sourceCode /\
    loopPos s = [] /\
    cout (io s) = [65].
Proof.
  eexists. eexists. split; [vm_compute; reflexivity|].
  split; [vm_compute; reflexivity|].
  repeat split.
Qed.

(** ** Comment Commands in the vector *)

Lemma comment_not_bracket com :
  isCommand (command com) = false ->
  Command_eq com LoopBegin = false /\ Command_eq com LoopEnd = false.
Proof.
  unfold isCommand, Command_eq.
  destruct (Ascii.eqb (command com) LoopBegin); [discriminate|].
  destruct (Ascii.eqb (command com) LoopEnd); [discriminate|]. auto.
Qed.

Lemma bracket_isCommand com :
  Command_eq com LoopBegin = true \/ Command_eq com LoopEnd = true ->
  isCommand (command com) = true.
Proof.
  destruct (isCommand (command com)) eqn:E; [reflexivity|].
  destruct (comment_not_bracket com E) as [Hb He]. intros [H|H]; congruence.
Qed.

Lemma interpret_comment com p io0 :
  isCommand (command com) = false -> interpret com p io0 = Ok (false, p, io0).
Proof.
  unfold isCommand, interpret.
  destruct (Ascii.eqb (command com) LoopBegin); [discriminate|].
  destruct (Ascii.eqb (command com) LoopEnd); [discriminate|].
  destruct (Ascii.eqb (command com) PointerIncr); [discriminate|].
  destruct (Ascii.eqb (command com) PointerDecr); [discriminate|].
  destruct (Ascii.eqb (command com) CellValIncr); [discriminate|].
  destruct (Ascii.eqb (command com) CellValDecr); [discriminate|].
  destruct (Ascii.eqb (command com) Cout); [discriminate|].
  destruct (Ascii.eqb (command com) Cin); [discriminate|].
  reflexivity.
Qed.

Lemma result_map_map {A B C : Type} (f : A -> B) (g : B -> C) r :
  result_map g (result_map f r) = result_map (fun a => g (f a)) r.
Proof. destruct r; reflexivity. Qed.

Lemma result_map_ext {A B : Type} (f g : A -> B) r :
  (forall a, f a = g a) -> result_map f r = result_map g r.
Proof. intros H. destruct r; simpl; [rewrite H|]; reflexivity. Qed.

Lemma strip_pos_S : forall sourceCode i com,
  nth_error sourceCode i = Some com ->
  strip_pos sourceCode (S i) =
  if isCommand (command com) then S (strip_pos sourceCode i)
  else strip_pos sourceCode i.
Proof.
  unfold strip_pos, strip.
  induction sourceCode as [|x l IH]; intros [|i] com H; simpl in H; try discriminate.
  - injection H as ->. simpl. destruct (isCommand (command com)); reflexivity.
  - specialize (IH i com H). cbn [firstn filter] in *.
    destruct (isCommand (command x)); cbn [length]; rewrite IH;
      destruct (isCommand (command com)); reflexivity.
Qed.

Lemma nth_error_strip : forall sourceCode i com,
  nth_error sourceCode i = Some com ->
  isCommand (command com) = true ->
  nth_error (strip sourceCode) (strip_pos sourceCode i) = Some com.
Proof.
  unfold strip_pos, strip.
  induction sourceCode as [|x l IH]; intros [|i] com H Hc; simpl in H; try discriminate.
  - injection H as ->. simpl. rewrite Hc. reflexivity.
  - specialize (IH i com H Hc). cbn [firstn filter].
    destruct (isCommand (command x)); cbn [length nth_error]; exact IH.
Qed.

Lemma strip_pos_all sourceCode i :
  (length sourceCode <= i)%nat ->
  strip_pos sourceCode i = length (strip sourceCode).
Proof. intros H. unfold strip_pos. rewrite firstn_all2 by exact H. reflexivity. Qed.

Lemma skipn_strip : forall sourceCode i,
  skipn (strip_pos sourceCode i) (strip sourceCode) = strip (skipn i sourceCode).
Proof.
  unfold strip_pos, strip.
  induction sourceCode as [|x l IH]; intros [|i]; try reflexivity.
  cbn [firstn filter skipn].
  destruct (isCommand (command x)); cbn [length skipn]; apply IH.
Qed.

Lemma strip_pos_add : forall i sourceCode j,
  strip_pos sourceCode (i + j) =
  (strip_pos sourceCode i + length (strip (firstn j (skipn i sourceCode))))%nat.
Proof.
  unfold strip_pos, strip.
  induction i as [|i IH]; intros [|x l] j; try reflexivity.
  - simpl. rewrite !firstn_nil. reflexivity.
  - cbn [Nat.add firstn filter skipn].
    destruct (isCommand (command x)); cbn [length]; rewrite IH; reflexivity.
Qed.

Lemma skipLoop_scan_shift : forall rest p k,
  skipLoop_scan rest p k =
  result_map (fun j => (p + j)%nat) (skipLoop_scan rest 0 k).
Proof.
  induction rest as [|com rest IH]; intros p k; [reflexivity|].
  cbn [skipLoop_scan].
  set (k' := if Command_eq com LoopBegin then size_t_wrap (k + 1)
             else if Command_eq com LoopEnd then size_t_wrap (k - 1) else k).
  destruct (negb (k' =? 0)).
  - rewrite (IH (S p)), (IH 1%nat), result_map_map.
    apply result_map_ext. intros j. lia.
  - simpl. f_equal. lia.
Qed.

(** The scan meets the same brackets in the reduced vector, as long as it
    does not start on a comment Command with the counter at 0. *)
Lemma skipLoop_scan_strip : forall rest k,
  k <> 0 \/ match rest with
            | [] => True
            | com :: _ => isCommand (command com) = true
            end ->
  skipLoop_scan (strip rest) 0 k =
    result_map (fun j => length (strip (firstn j rest))) (skipLoop_scan rest 0 k) /\
  (forall j, skipLoop_scan rest 0 k = Ok j ->
             exists com, nth_error rest j = Some com /\
                         isCommand (command com) = true).
Proof.
  induction rest as [|com rest IH]; intros k H.
  - split; [reflexivity | discriminate].
  - destruct (isCommand (command com)) eqn:Hc.
    + unfold strip. cbn [filter]. rewrite Hc. fold (strip rest).
      cbn [skipLoop_scan].
      set (k' := if Command_eq com LoopBegin then size_t_wrap (k + 1)
                 else if Command_eq com LoopEnd then size_t_wrap (k - 1) else k).
      destruct (k' =? 0) eqn:Hk'; cbn [negb].
      * split; [reflexivity|]. intros j Hj. injection Hj as <-.
        exists com. split; [reflexivity | exact Hc].
      * apply Z.eqb_neq in Hk'.
        destruct (IH k' (or_introl Hk')) as [IH1 IH2].
        rewrite (skipLoop_scan_shift (strip rest) 1), (skipLoop_scan_shift rest 1).
        rewrite IH1, !result_map_map. split.
        -- apply result_map_ext. intros j. cbn [Nat.add firstn].
           unfold strip. cbn [filter]. rewrite Hc. reflexivity.
        -- intros j Hj. destruct (skipLoop_scan rest 0 k') as [j'|] eqn:E;
             [|discriminate].
           injection Hj as <-. exact (IH2 j' eq_refl).
    + destruct H as [Hk | H]; [|congruence].
      destruct (comment_not_bracket com Hc) as [Hb He].
      unfold strip. cbn [filter]. rewrite Hc. fold (strip rest).
      cbn [skipLoop_scan]. rewrite Hb, He.
      replace (k =? 0) with false by (symmetry; apply Z.eqb_neq; exact Hk).
      cbn [negb].
      destruct (IH k (or_introl Hk)) as [IH1 IH2].
      rewrite (skipLoop_scan_shift rest 1), IH1, result_map_map. split.
      * apply result_map_ext. intros j. cbn [Nat.add firstn].
        unfold strip. cbn [filter]. rewrite Hc. reflexivity.
      * intros j Hj. destruct (skipLoop_scan rest 0 k) as [j'|] eqn:E;
          [|discriminate].
        injection Hj as <-. exact (IH2 j' eq_refl).
Qed.

Lemma skipLoop_strip sourceCode i com :
  nth_error sourceCode i = Some com ->
  isCommand (command com) = true ->
  skipLoop (strip sourceCode) (strip_pos sourceCode i) =
    result_map (strip_pos sourceCode) (skipLoop sourceCode i) /\
  (forall q, skipLoop sourceCode i = Ok q ->
             exists c, nth_error sourceCode q = Some c /\
                       isCommand (command c) = true).
Proof.
  intros Hcom Hc. unfold skipLoop.
  rewrite (nth_error_strip _ _ _ Hcom Hc), Hcom.
  destruct (Command_eq com LoopBegin); [|split; [reflexivity | discriminate]].
  rewrite skipn_strip.
  assert (Hhead : 0 <> 0 \/ match skipn i sourceCode with
                            | [] => True
                            | com' :: _ => isCommand (command com') = true
                            end).
  { right. pose proof (nth_error_skipn i sourceCode 0) as Hn.
    rewrite Nat.add_0_r, Hcom in Hn.
    destruct (skipn i sourceCode) as [|com' l]; [exact I|].
    simpl in Hn. injection Hn as ->. exact Hc. }
  destruct (skipLoop_scan_strip _ 0 Hhead) as [H1 H2].
  rewrite (skipLoop_scan_shift _ (strip_pos sourceCode i)), H1.
  rewrite (skipLoop_scan_shift _ i), !result_map_map. split.
  - apply result_map_ext. intros j. symmetry. apply strip_pos_add.
  - intros q Hq. destruct (skipLoop_scan (skipn i sourceCode) 0 0) as [j|] eqn:E;
      [|discriminate].
    injection Hq as <-. destruct (H2 j eq_refl) as (c & Hn & Hcc).
    exists c. rewrite nth_error_skipn in Hn. auto.
Qed.

Lemma step_comment sourceCode s com :
  nth_error sourceCode (it s) = Some com ->
  isCommand (command com) = false ->
  step sourceCode s = Ok (mkState (S (it s)) (loopPos s) (ptr s) (io s)) /\
  strip_state sourceCode (mkState (S (it s)) (loopPos s) (ptr s) (io s)) =
    strip_state sourceCode s.
Proof.
  intros Hcom Hc. destruct (comment_not_bracket com Hc) as [Hb He]. split.
  - unfold step. rewrite Hcom, Hb, He, (interpret_comment _ _ _ Hc). reflexivity.
  - unfold strip_state. simpl. rewrite (strip_pos_S _ _ _ Hcom), Hc. reflexivity.
Qed.

Lemma step_operator sourceCode s com :
  nth_error sourceCode (it s) = Some com ->
  isCommand (command com) = true ->
  step (strip sourceCode) (strip_state sourceCode s) =
    result_map (strip_state sourceCode) (step sourceCode s).
Proof.
  intros Hcom Hc. unfold step. cbn [it loopPos ptr io strip_state].
  rewrite (nth_error_strip _ _ _ Hcom Hc), Hcom.
  pose proof (strip_pos_S _ _ _ Hcom) as HS. rewrite Hc in HS.
  destruct (Command_eq com LoopBegin).
  - destruct (deref (ptr s)) as [v|e]; [|reflexivity]. cbn [bind].
    destruct (v =? 0).
    + destruct (skipLoop_strip _ _ _ Hcom Hc) as [-> Hq].
      destruct (skipLoop sourceCode (it s)) as [q|e]; [|reflexivity].
      destruct (Hq q eq_refl) as (c & Hn & Hcc).
      pose proof (strip_pos_S _ _ _ Hn) as HSq. rewrite Hcc in HSq.
      simpl. unfold strip_state. simpl. rewrite HSq. reflexivity.
    + simpl. unfold strip_state. simpl. rewrite HS. reflexivity.
  - destruct (Command_eq com LoopEnd).
    + destruct (loopPos s) as [|top loopPos']; reflexivity.
    + destruct (interpret com (ptr s) (io s)) as [r|e]; [|reflexivity].
      simpl. unfold strip_state. simpl. rewrite HS. reflexivity.
Qed.

Lemma step_positions_ok sourceCode s s' :
  positions_ok sourceCode s ->
  step sourceCode s = Ok s' ->
  positions_ok sourceCode s'.
Proof.
  unfold positions_ok. intros Hok Hstep.
  inversion Hok as [|? ? Hit Hstack]; subst.
  unfold step in Hstep.
  destruct (nth_error sourceCode (it s)) as [com|] eqn:Hcom; [|discriminate].
  assert (Hlt : (it s < length sourceCode)%nat).
  { apply nth_error_Some. congruence. }
  destruct (Command_eq com LoopBegin) eqn:Hb.
  - destruct (deref (ptr s)) as [v|e]; [|discriminate]. cbn [bind] in Hstep.
    destruct (v =? 0).
    + destruct (skipLoop_strip _ _ _ Hcom (bracket_isCommand _ (or_introl Hb)))
        as [_ Hq].
      destruct (skipLoop sourceCode (it s)) as [q|e]; [|discriminate].
      destruct (Hq q eq_refl) as (c & Hn & _).
      assert ((q < length sourceCode)%nat) by (apply nth_error_Some; congruence).
      simpl in Hstep. injection Hstep as <-. simpl.
      constructor; [lia | exact Hstack].
    + injection Hstep as <-. simpl. constructor; [lia|]. constructor; assumption.
  - destruct (Command_eq com LoopEnd).
    + destruct (loopPos s) as [|top loopPos']; [discriminate|].
      injection Hstep as <-. simpl. exact Hstack.
    + destruct (interpret com (ptr s) (io s)) as [r|e]; [|discriminate].
      simpl in Hstep. injection Hstep as <-. simpl.
      constructor; [lia | exact Hstack].
Qed.

Lemma run_halted fuel sourceCode s :
  it s = length sourceCode -> run fuel sourceCode s = Some (Ok s).
Proof.
  intros H. destruct fuel; simpl; rewrite H, Nat.eqb_refl; reflexivity.
Qed.

Lemma run_step fuel sourceCode s :
  it s <> length sourceCode ->
  run (S fuel) sourceCode s =
  match step sourceCode s with
  | Ok s' => run fuel sourceCode s'
  | Err e => Some (Err e)
  end.
Proof.
  intros H. apply Nat.eqb_neq in H. simpl. rewrite H. reflexivity.
Qed.

(** Every run of the vector is matched by a run of the reduced vector. *)
Lemma run_strip_forward sourceCode : forall fuel s r,
  positions_ok sourceCode s ->
  run fuel sourceCode s = Some r ->
  exists fuel',
    run fuel' (strip sourceCode) (strip_state sourceCode s) =
      Some (result_map (strip_state sourceCode) r).
Proof.
  induction fuel as [|fuel IH]; intros s r Hok Hrun.
  - simpl in Hrun. destruct (Nat.eqb_spec (it s) (length sourceCode)) as [E|E];
      [|discriminate].
    injection Hrun as <-. exists O. apply run_halted. simpl.
    apply strip_pos_all. lia.
  - destruct (Nat.eq_dec (it s) (length sourceCode)) as [E|E].
    + rewrite run_halted in Hrun by exact E. injection Hrun as <-.
      exists O. apply run_halted. simpl. apply strip_pos_all. lia.
    + rewrite run_step in Hrun by exact E.
      assert (Hlt : (it s < length sourceCode)%nat).
      { inversion Hok; subst. lia. }
      destruct (nth_error sourceCode (it s)) as [com|] eqn:Hcom;
        [|apply nth_error_None in Hcom; lia].
      destruct (isCommand (command com)) eqn:Hc.
      * pose proof (step_operator _ _ _ Hcom Hc) as Hstep.
        assert (Hne : it (strip_state sourceCode s) <> length (strip sourceCode)).
        { simpl. pose proof (nth_error_strip _ _ _ Hcom Hc) as Hn.
          assert (nth_error (strip sourceCode) (strip_pos sourceCode (it s)) <> None)
            by congruence.
          apply nth_error_Some in H. lia. }
        destruct (step sourceCode s) as [s'|e] eqn:Es.
        -- destruct (IH s' r (step_positions_ok _ _ _ Hok Es) Hrun) as [fuel' Hf].
           exists (S fuel'). rewrite run_step by exact Hne.
           rewrite Hstep. simpl. exact Hf.
        -- injection Hrun as <-. exists 1%nat. rewrite run_step by exact Hne.
           rewrite Hstep. reflexivity.
      * destruct (step_comment _ _ _ Hcom Hc) as [Es Hsame].
        rewrite Es in Hrun.
        destruct (IH _ r (step_positions_ok _ _ _ Hok Es) Hrun) as [fuel' Hf].
        exists fuel'. rewrite <- Hsame. exact Hf.
Qed.

(** From any state the engine passes the comment Commands under the cursor
    in finitely many iterations that change nothing but the cursor. *)
Lemma skip_comments sourceCode : forall d s,
  d = (length sourceCode - it s)%nat ->
  positions_ok sourceCode s ->
  exists k s1,
    (forall fuel, run (k + fuel) sourceCode s = run fuel sourceCode s1) /\
    strip_state sourceCode s1 = strip_state sourceCode s /\
    positions_ok sourceCode s1 /\
    (it s1 = length sourceCode \/
     exists com, nth_error sourceCode (it s1) = Some com /\
                 isCommand (command com) = true).
Proof.
  induction d as [|d IH]; intros s Hd Hok.
  - exists O, s. repeat split; [assumption|]. left.
    inversion Hok; subst. lia.
  - destruct (nth_error sourceCode (it s)) as [com|] eqn:Hcom;
      [|apply nth_error_None in Hcom; lia].
    destruct (isCommand (command com)) eqn:Hc.
    + exists O, s. repeat split; [assumption|]. right. eauto.
    + destruct (step_comment _ _ _ Hcom Hc) as [Es Hsame].
      pose proof (step_positions_ok _ _ _ Hok Es) as Hok1.
      destruct (IH (mkState (S (it s)) (loopPos s) (ptr s) (io s))
                  ltac:(simpl; lia) Hok1) as (k & s1 & Hk & Hs1 & Hok' & Hcase).
      exists (S k), s1. repeat split; [|congruence|assumption|assumption].
      intros fuel. cbn [Nat.add]. rewrite run_step by lia. rewrite Es. apply Hk.
Qed.

(** Every run of the reduced vector is matched by a run of the vector. *)
Lemma run_strip_backward sourceCode : forall fuel' s r',
  positions_ok sourceCode s ->
  run fuel' (strip sourceCode) (strip_state sourceCode s) = Some r' ->
  exists fuel r,
    run fuel sourceCode s = Some r /\
    r' = result_map (strip_state sourceCode) r.
Proof.
  induction fuel' as [fuel' IH] using (well_founded_induction Wf_nat.lt_wf).
  intros s r' Hok Hrun.
  destruct (skip_comments sourceCode _ s eq_refl Hok)
    as (k & s1 & Hk & Hsame & Hok1 & [Hend | (com & Hcom & Hc)]).
  - rewrite <- Hsame in Hrun. rewrite run_halted in Hrun
      by (simpl; apply strip_pos_all; lia).
    injection Hrun as <-. exists (k + 0)%nat, (Ok s1).
    rewrite Hk, run_halted by exact Hend. auto.
  - rewrite <- Hsame in Hrun.
    assert (Hlt : (it s1 < length sourceCode)%nat)
      by (apply nth_error_Some; congruence).
    assert (Hne : it (strip_state sourceCode s1) <> length (strip sourceCode)).
    { simpl. pose proof (nth_error_strip _ _ _ Hcom Hc) as Hn.
      assert (nth_error (strip sourceCode) (strip_pos sourceCode (it s1)) <> None)
        as Hsome by congruence.
      apply nth_error_Some in Hsome. lia. }
    destruct fuel' as [|fuel'].
    + simpl in Hrun. apply Nat.eqb_neq in Hne. simpl in Hne. rewrite Hne in Hrun.
      discriminate.
    + rewrite run_step in Hrun by exact Hne.
      rewrite (step_operator _ _ _ Hcom Hc) in Hrun.
      destruct (step sourceCode s1) as [s2|e] eqn:Es; simpl in Hrun.
      * destruct (IH fuel' (Nat.lt_succ_diag_r _) s2 r'
                    (step_positions_ok _ _ _ Hok1 Es) Hrun) as (fuel & r & Hr & ->).
        exists (k + S fuel)%nat, r. rewrite Hk, run_step by lia. rewrite Es. auto.
      * injection Hrun as <-. exists (k + 1)%nat, (Err e).
        rewrite Hk, run_step by lia. rewrite Es. auto.
Qed.

(** ** The same, state by state

    The runs above speak of executions that leave the loop or abort.  The
    lemmas below relate the two vectors at every point of an execution,
    whether it ends or not. *)

Lemma steps_app sourceCode : forall a b s,
  steps (a + b) sourceCode s =
  (s1 <- steps a sourceCode s ;; steps b sourceCode s1).
Proof.
  induction a as [|a IH]; intros b s; [reflexivity|].
  cbn [Nat.add steps]. destruct (step sourceCode s) as [s1|e]; [|reflexivity].
  cbn [bind]. apply IH.
Qed.

Lemma steps_positions_ok sourceCode : forall n s s',
  positions_ok sourceCode s ->
  steps n sourceCode s = Ok s' ->
  positions_ok sourceCode s'.
Proof.
  induction n as [|n IH]; intros s s' Hok H.
  - injection H as <-. exact Hok.
  - cbn [steps] in H. destruct (step sourceCode s) as [s1|] eqn:E; [|discriminate].
    exact (IH _ _ (step_positions_ok _ _ _ Hok E) H).
Qed.

Lemma strip_running sourceCode i com :
  nth_error sourceCode i = Some com ->
  isCommand (command com) = true ->
  strip_pos sourceCode i <> length (strip sourceCode).
Proof.
  intros Hcom Hc. pose proof (nth_error_strip _ _ _ Hcom Hc) as Hn.
  assert (nth_error (strip sourceCode) (strip_pos sourceCode i) <> None)
    as Hsome by congruence.
  apply nth_error_Some in Hsome. lia.
Qed.

(** Every state the vector reaches corresponds to a state the reduced
    vector reaches, in no more iterations. *)
Lemma steps_strip_forward sourceCode : forall n s s',
  positions_ok sourceCode s ->
  steps n sourceCode s = Ok s' ->
  exists m,
    (m <= n)%nat /\
    steps m (strip sourceCode) (strip_state sourceCode s) =
      Ok (strip_state sourceCode s').
Proof.
  induction n as [|n IH]; intros s s' Hok H.
  - injection H as <-. exists O. split; [lia | reflexivity].
  - cbn [steps] in H. destruct (step sourceCode s) as [s1|] eqn:Es; [|discriminate].
    cbn [bind] in H.
    destruct (IH _ _ (step_positions_ok _ _ _ Hok Es) H) as (m & Hm & Hsteps).
    destruct (nth_error sourceCode (it s)) as [com|] eqn:Hcom;
      [|unfold step in Es; rewrite Hcom in Es; discriminate].
    destruct (isCommand (command com)) eqn:Hc.
    + exists (S m). split; [lia|]. cbn [steps].
      rewrite (step_operator _ _ _ Hcom Hc), Es. exact Hsteps.
    + destruct (step_comment _ _ _ Hcom Hc) as [Es' Hsame].
      rewrite Es' in Es. injection Es as <-.
      exists m. split; [lia|]. rewrite <- Hsame. exact Hsteps.
Qed.

(** The comment Commands under the cursor are passed in finitely many
    iterations that change nothing but the cursor. *)
Lemma skip_comments_steps sourceCode : forall d s,
  d = (length sourceCode - it s)%nat ->
  positions_ok sourceCode s ->
  exists k s1,
    steps k sourceCode s = Ok s1 /\
    strip_state sourceCode s1 = strip_state sourceCode s /\
    positions_ok sourceCode s1 /\
    (it s1 = length sourceCode \/
     exists com, nth_error sourceCode (it s1) = Some com /\
                 isCommand (command com) = true).
Proof.
  induction d as [|d IH]; intros s Hd Hok.
  - exists O, s. repeat split; [assumption|]. left.
    inversion Hok; subst. lia.
  - destruct (nth_error sourceCode (it s)) as [com|] eqn:Hcom;
      [|apply nth_error_None in Hcom; lia].
    destruct (isCommand (command com)) eqn:Hc.
    + exists O, s. repeat split; [assumption|]. right. eauto.
    + destruct (step_comment _ _ _ Hcom Hc) as [Es Hsame].
      pose proof (step_positions_ok _ _ _ Hok Es) as Hok1.
      destruct (IH (mkState (S (it s)) (loopPos s) (ptr s) (io s))
                  ltac:(simpl; lia) Hok1) as (k & s1 & Hk & Hs1 & Hok' & Hcase).
      exists (S k), s1. repeat split; [|congruence|assumption|assumption].
      cbn [steps]. rewrite Es. exact Hk.
Qed.

(** Every state the reduced vector reaches corresponds to a state the
    vector reaches. *)
Lemma steps_strip_backward sourceCode : forall m s t,
  positions_ok sourceCode s ->
  steps m (strip sourceCode) (strip_state sourceCode s) = Ok t ->
  exists n s',
    (m <= n)%nat /\
    steps n sourceCode s = Ok s' /\
    strip_state sourceCode s' = t /\
    positions_ok sourceCode s'.
Proof.
  induction m as [|m IH]; intros s t Hok H.
  - injection H as <-. exists O, s. repeat split; [lia | assumption].
  - destruct (skip_comments_steps sourceCode _ s eq_refl Hok)
      as (k & s1 & Hk & Hsame & Hok1 & Hcase).
    rewrite <- Hsame in H. cbn [steps] in H.
    destruct Hcase as [Hend | (com & Hcom & Hc)].
    + unfold step in H. cbn [it strip_state] in H.
      rewrite (strip_pos_all sourceCode (it s1)) in H by lia.
      assert (Hnone : nth_error (strip sourceCode) (length (strip sourceCode)) = None)
        by (apply nth_error_None; lia).
      rewrite Hnone in H. discriminate.
    + rewrite (step_operator _ _ _ Hcom Hc) in H.
      destruct (step sourceCode s1) as [s2|] eqn:Es; [|discriminate].
      cbn [result_map bind] in H.
      destruct (IH _ _ (step_positions_ok _ _ _ Hok1 Es) H)
        as (n & s' & Hn & Hsteps & Ht & Hok').
      exists (k + S n)%nat, s'. split; [lia|]. split; [|split; assumption].
      rewrite steps_app, Hk. cbn [bind steps]. rewrite Es. exact Hsteps.
Qed.

(** An iteration that aborts in one vector aborts in the other, with the
    same error and from corresponding states. *)
Lemma abort_strip_forward sourceCode n s s1 e :
  positions_ok sourceCode s ->
  steps n sourceCode s = Ok s1 ->
  it s1 <> length sourceCode ->
  step sourceCode s1 = Err e ->
  exists m,
    (m <= n)%nat /\
    steps m (strip sourceCode) (strip_state sourceCode s) =
      Ok (strip_state sourceCode s1) /\
    it (strip_state sourceCode s1) <> length (strip sourceCode) /\
    step (strip sourceCode) (strip_state sourceCode s1) = Err e.
Proof.
  intros Hok Hsteps Hrun Herr.
  destruct (steps_strip_forward _ _ _ _ Hok Hsteps) as (m & Hm & Hs).
  exists m. split; [exact Hm|]. split; [exact Hs|].
  destruct (nth_error sourceCode (it s1)) as [com|] eqn:Hcom;
    [|unfold step in Herr; rewrite Hcom in Herr;
      pose proof (steps_positions_ok _ _ _ _ Hok Hsteps) as Hok1;
      inversion Hok1; subst; apply nth_error_None in Hcom; lia].
  destruct (isCommand (command com)) eqn:Hc.
  - split; [exact (strip_running _ _ _ Hcom Hc)|].
    rewrite (step_operator _ _ _ Hcom Hc), Herr. reflexivity.
  - destruct (step_comment _ _ _ Hcom Hc) as [Es _]. congruence.
Qed.

Lemma abort_strip_backward sourceCode m s t e :
  positions_ok sourceCode s ->
  steps m (strip sourceCode) (strip_state sourceCode s) = Ok t ->
  it t <> length (strip sourceCode) ->
  step (strip sourceCode) t = Err e ->
  exists n s1,
    (m <= n)%nat /\
    steps n sourceCode s = Ok s1 /\
    strip_state sourceCode s1 = t /\
    it s1 <> length sourceCode /\
    step sourceCode s1 = Err e.
Proof.
  intros Hok Hsteps Hrun Herr.
  destruct (steps_strip_backward _ _ _ _ Hok Hsteps)
    as (n & s' & Hn & Hs & Ht & Hok').
  destruct (skip_comments_steps sourceCode _ s' eq_refl Hok')
    as (k & s1 & Hk & Hsame & Hok1 & Hcase).
  exists (n + k)%nat, s1. split; [lia|]. split.
  { rewrite steps_app, Hs. exact Hk. }
  split; [congruence|].
  destruct Hcase as [Hend | (com & Hcom & Hc)].
  - exfalso. apply Hrun. rewrite <- Ht, <- Hsame. cbn [it strip_state].
    apply strip_pos_all. lia.
  - split.
    { assert (it s1 < length sourceCode)%nat
        by (apply nth_error_Some; congruence).
      lia. }
    pose proof (step_operator _ _ _ Hcom Hc) as Hop.
    rewrite Hsame, Ht, Herr in Hop.
    destruct (step sourceCode s1); [discriminate|].
    simpl in Hop. congruence.
Qed.

(** C10. [interpret] answers [false] to a Command whose character is no
    operator and changes neither the tape, the cursor address nor the
    streams.  Hence a vector and the same vector without its comment
    Commands behave alike.  From corresponding states (same tape and
    streams, positions translated by [strip_pos]):
    - every run of the one that leaves the loop or aborts is matched by a
      run of the other that ends the same way with the same tape, input and
      output;
    - at every point of an execution, whether it ends or not, the state the
      one vector has reached corresponds to a state the other reaches, so
      the bytes written and the input consumed so far and the tape are the
      same; the reduced vector needs no more iterations than the vector;
    - an iteration that aborts in the one aborts in the other with the same
      error, from corresponding states.
    The state in which [main] enters its loop is its own counterpart. *)
Theorem comment_commands_are_inert :
  (forall com p io0,
      isCommand (command com) = false ->
      interpret com p io0 = Ok (false, p, io0)) /\
  (forall sourceCode com,
      In com (strip sourceCode) <->
      In com sourceCode /\ isCommand (command com) = true) /\
  (forall sourceCode s,
      ptr (strip_state sourceCode s) = ptr s /\
      io (strip_state sourceCode s) = io s) /\
  (forall sourceCode s,
      positions_ok sourceCode s ->
      (forall fuel r,
          run fuel sourceCode s = Some r ->
          exists fuel',
            run fuel' (strip sourceCode) (strip_state sourceCode s) =
              Some (result_map (strip_state sourceCode) r)) /\
      (forall fuel' r',
          run fuel' (strip sourceCode) (strip_state sourceCode s) = Some r' ->
          exists fuel r,
            run fuel sourceCode s = Some r /\
            r' = result_map (strip_state sourceCode) r)) /\
  (forall sourceCode input s0,
      initial input = Ok s0 ->
      positions_ok sourceCode s0 /\ strip_state sourceCode s0 = s0) /\
  (forall sourceCode s,
      positions_ok sourceCode s ->
      (forall n s',
          steps n sourceCode s = Ok s' ->
          exists m,
            (m <= n)%nat /\
            steps m (strip sourceCode) (strip_state sourceCode s) =
              Ok (strip_state sourceCode s')) /\
      (forall m t,
          steps m (strip sourceCode) (strip_state sourceCode s) = Ok t ->
          exists n s',
            (m <= n)%nat /\
            steps n sourceCode s = Ok s' /\
            strip_state sourceCode s' = t) /\
      (forall n s1 e,
          steps n sourceCode s = Ok s1 ->
          it s1 <> length sourceCode ->
          step sourceCode s1 = Err e ->
          exists m,
            (m <= n)%nat /\
            steps m (strip sourceCode) (strip_state sourceCode s) =
              Ok (strip_state sourceCode s1) /\
            it (strip_state sourceCode s1) <> length (strip sourceCode) /\
            step (strip sourceCode) (strip_state sourceCode s1) = Err e) /\
      (forall m t e,
          steps m (strip sourceCode) (strip_state sourceCode s) = Ok t ->
          it t <> length (strip sourceCode) ->
          step (strip sourceCode) t = Err e ->
          exists n s1,
            (m <= n)%nat /\
            steps n sourceCode s = Ok s1 /\
            strip_state sourceCode s1 = t /\
            it s1 <> length sourceCode /\
            step sourceCode s1 = Err e)).
Proof.
  split; [exact interpret_comment|].
  split; [intros sourceCode com; apply filter_In|].
  split; [intros sourceCode s; split; reflexivity|].
  split; [|split].
  - intros sourceCode s Hok. split.
    + intros fuel r. apply run_strip_forward. exact Hok.
    + intros fuel' r'. apply run_strip_backward. exact Hok.
  - intros sourceCode input s0 H. vm_compute in H. injection H as <-.
    split; [|reflexivity].
    unfold positions_ok. simpl. constructor; [lia | constructor].
  - intros sourceCode s Hok. split; [|split; [|split]].
    + intros n s'. apply steps_strip_forward. exact Hok.
    + intros m t H.
      destruct (steps_strip_backward _ _ _ _ Hok H) as (n & s' & Hn & Hs & Ht & _).
      eauto.
    + intros n s1 e. apply abort_strip_forward. exact Hok.
    + intros m t e. apply abort_strip_backward. exact Hok.
Qed.

Lemma comment_commands_are_inert_witness :
  interpret (mkCommand "x" 0) (mkPointer [3] 0) (mkIO (mkIstream [] false) []) =
    Ok (false, mkPointer [3] 0, mkIO (mkIstream [] false) []) /\
  (exists fuel',
    run fuel' (strip (chars_program "a+[x-]b."))
        (strip_state (chars_program "a+[x-]b.")
           (mkState 0 [] (mkPointer [0] 0) (mkIO (mkIstream [] false) []))) =
    Some (result_map (strip_state (chars_program "a+[x-]b."))
            (Ok (mkState 8 [] (mkPointer [0] 0) (mkIO (mkIstream [] false) [0]))))) /\
  (exists m,
    (m <= 9)%nat /\
    steps m (strip (chars_program "+[a.]"))
          (strip_state (chars_program "+[a.]")
             (mkState 0 [] (mkPointer [0] 0) (mkIO (mkIstream [] false) []))) =
    Ok (strip_state (chars_program "+[a.]")
          (mkState 1 [] (mkPointer [1] 0) (mkIO (mkIstream [] false) [1; 1])))) /\
  (exists m,
    (m <= 2)%nat /\
    steps m (strip (chars_program "[a]+<"))
          (strip_state (chars_program "[a]+<")
             (mkState 0 [] (mkPointer [0] 0) (mkIO (mkIstream [] false) []))) =
    Ok (strip_state (chars_program "[a]+<")
          (mkState 4 [] (mkPointer [1] 0) (mkIO (mkIstream [] false) []))) /\
    it (strip_state (chars_program "[a]+<")
          (mkState 4 [] (mkPointer [1] 0) (mkIO (mkIstream [] false) []))) <>
      length (strip (chars_program "[a]+<")) /\
    step (strip (chars_program "[a]+<"))
         (strip_state (chars_program "[a]+<")
            (mkState 4 [] (mkPointer [1] 0) (mkIO (mkIstream [] false) []))) =
      Err AssertionFailed).
Proof.
  destruct comment_commands_are_inert as (H1 & _ & _ & H2 & _ & H3).
  split; [|split; [|split]].
  - apply H1. reflexivity.
  - apply (proj1 (H2 (chars_program "a+[x-]b.")
                     (mkState 0 [] (mkPointer [0] 0) (mkIO (mkIstream [] false) []))
                     ltac:(unfold positions_ok; simpl; repeat constructor; simpl; lia))
             10%nat).
    vm_compute. reflexivity.
  - apply (proj1 (H3 (chars_program "+[a.]")
                     (mkState 0 [] (mkPointer [0] 0) (mkIO (mkIstream [] false) []))
                     ltac:(unfold positions_ok; simpl; repeat constructor; simpl; lia))
             9%nat).
    reflexivity.
  - apply (proj1 (proj2 (proj2
             (H3 (chars_program "[a]+<")
                 (mkState 0 [] (mkPointer [0] 0) (mkIO (mkIstream [] false) []))
                 ltac:(unfold positions_ok; simpl; repeat constructor; simpl; lia))))
             2%nat).
    + reflexivity.
    + simpl. lia.
    + reflexivity.
Defined.

(** * Further properties of the tape *)

Lemma resize_length n mem :
  0 <= n -> Z.of_nat (length (resize n mem)) = n.
Proof.
  intros Hn. unfold resize.
  rewrite length_app, length_firstn, repeat_length. lia.
Qed.

Lemma resize_grow n mem :
  Z.of_nat (length mem) <= n ->
  resize n mem = mem ++ repeat 0 (Z.to_nat n - length mem)%nat.
Proof.
  intros Hn. unfold resize. rewrite firstn_all2 by lia. reflexivity.
Qed.

Lemma size_t_wrap_range z : 0 <= size_t_wrap z < size_t_modulus.
Proof. unfold size_t_wrap. apply Z.mod_pos_bound. reflexivity. Qed.

(** X1. The cursor stays on the tape: a freshly constructed [Pointer]
    addresses a cell; [operator+=] keeps it so unless the new address is the
    largest [size_t] value; [operator-=], when its assertion holds, and a
    write through [operator*] keep it so; and on such a [Pointer] the
    assertion of [operator*] holds. *)
Theorem cursor_stays_on_tape :
  (forall n p, Pointer_new n = Ok p -> 0 < n -> pointer_ok p) /\
  (forall p c,
      pointer_ok p ->
      size_t_wrap (index_ p + c) <> size_t_modulus - 1 ->
      pointer_ok (Pointer_add p c)) /\
  (forall p c p', pointer_ok p -> Pointer_sub p c = Ok p' -> pointer_ok p') /\
  (forall p v, pointer_ok p -> pointer_ok (assign p v)) /\
  (forall p, pointer_ok p -> exists v, deref p = Ok v).
Proof.
  unfold pointer_ok, mem_size. split; [|split; [|split; [|split]]].
  - intros n p H Hn. unfold Pointer_new in H. destruct (n =? 0); [discriminate|].
    injection H as <-. cbn [index_ mem_]. rewrite repeat_length. lia.
  - intros p c Hok Hmax.
    pose proof (size_t_wrap_range (index_ p + c)) as Hr.
    unfold Pointer_add, mem_size.
    destruct (Z.leb_spec (Z.of_nat (length (mem_ p))) (size_t_wrap (index_ p + c)));
      cbn [index_ mem_]; [|lia].
    rewrite (size_t_wrap_small (size_t_wrap (index_ p + c) + 1)) by lia.
    rewrite resize_length by lia. lia.
  - intros p c p' Hok H. unfold Pointer_sub in H.
    pose proof (size_t_wrap_range (index_ p - c)) as Hr.
    destruct (Z.ltb_spec (size_t_wrap (index_ p - c)) (index_ p)); [|discriminate].
    injection H as <-. cbn [index_ mem_]. lia.
  - intros p v Hok. cbn [assign index_ mem_]. rewrite set_nth_length. lia.
  - intros p [Hlo Hhi]. unfold deref, mem_size.
    destruct (Z.gtb_spec (Z.of_nat (length (mem_ p))) (index_ p)); [|lia].
    destruct (nth_error (mem_ p) (Z.to_nat (index_ p))) as [v|] eqn:E; [eauto|].
    apply nth_error_None in E. lia.
Qed.

Lemma cursor_stays_on_tape_witness :
  pointer_ok (mkPointer [0] 0) /\
  pointer_ok (Pointer_add (mkPointer [0] 0) 3) /\
  pointer_ok (mkPointer [0; 0; 0; 0] 1) /\
  pointer_ok (assign (mkPointer [0] 0) 7) /\
  exists v, deref (mkPointer [0] 0) = Ok v.
Proof.
  destruct cursor_stays_on_tape as (H1 & H2 & H3 & H4 & H5).
  assert (Hp : pointer_ok (mkPointer [0] 0)).
  { apply (H1 1 (mkPointer [0] 0)); [reflexivity | lia]. }
  split; [exact Hp|]. split; [|split; [|split]].
  - apply H2; [exact Hp | vm_compute; discriminate].
  - apply (H3 (Pointer_add (mkPointer [0] 0) 3) 2).
    + apply H2; [exact Hp | vm_compute; discriminate].
    + reflexivity.
  - apply H4. exact Hp.
  - apply H5. exact Hp.
Defined.

Lemma Pointer_sub_cases (p : Pointer) (c : Z) :
  0 <= index_ p < size_t_modulus ->
  0 <= c < size_t_modulus ->
  (0 < c <= index_ p ->
   Pointer_sub p c = Ok (mkPointer (mem_ p) (index_ p - c))) /\
  (c = 0 \/ index_ p < c -> Pointer_sub p c = Err AssertionFailed).
Proof.
  intros Hi Hc. unfold Pointer_sub. split.
  - intros Hle. rewrite size_t_wrap_small by lia.
    destruct (Z.ltb_spec (index_ p - c) (index_ p)); [reflexivity | lia].
  - intros [-> | Hlt].
    + rewrite Z.sub_0_r, size_t_wrap_small by lia.
      rewrite Z.ltb_irrefl. reflexivity.
    + assert (Hw : size_t_wrap (index_ p - c) = index_ p - c + size_t_modulus).
      { unfold size_t_wrap.
        rewrite <- (Z_mod_plus_full (index_ p - c) 1 size_t_modulus).
        rewrite Z.mul_1_l. apply Z.mod_small. lia. }
      rewrite Hw.
      destruct (Z.ltb_spec (index_ p - c + size_t_modulus) (index_ p));
        [lia | reflexivity].
Qed.

(** X2. On a cursor address [index_] and a distance [c], both in the range
    of [size_t], [operator-=] succeeds exactly when [0 < c <= index_], and
    then moves the cursor to [index_ - c] without touching the cells; a
    distance of 0 and a distance beyond the origin fail its assertion. *)
Theorem retreat_succeeds_iff (p : Pointer) (c : Z) :
  0 <= index_ p < size_t_modulus ->
  0 <= c < size_t_modulus ->
  (0 < c <= index_ p ->
   Pointer_sub p c = Ok (mkPointer (mem_ p) (index_ p - c))) /\
  (c = 0 \/ index_ p < c -> Pointer_sub p c = Err AssertionFailed).
Proof. exact (Pointer_sub_cases p c). Qed.

Lemma retreat_succeeds_iff_witness :
  Pointer_sub (mkPointer [1; 2; 3] 2) 2 = Ok (mkPointer [1; 2; 3] 0) /\
  Pointer_sub (mkPointer [1; 2; 3] 2) 0 = Err AssertionFailed /\
  Pointer_sub (mkPointer [1; 2; 3] 2) 3 = Err AssertionFailed.
Proof.
  assert (Hi : 0 <= index_ (mkPointer [1; 2; 3] 2) < size_t_modulus)
    by (vm_compute; split; [discriminate | reflexivity]).
  split; [|split].
  - apply (proj1 (retreat_succeeds_iff (mkPointer [1; 2; 3] 2) 2 Hi
                    ltac:(vm_compute; split; [discriminate | reflexivity]))).
    simpl. lia.
  - apply (proj2 (retreat_succeeds_iff (mkPointer [1; 2; 3] 2) 0 Hi
                    ltac:(vm_compute; split; [discriminate | reflexivity]))).
    left. reflexivity.
  - apply (proj2 (retreat_succeeds_iff (mkPointer [1; 2; 3] 2) 3 Hi
                    ltac:(vm_compute; split; [discriminate | reflexivity]))).
    right. simpl. lia.
Defined.

Lemma Pointer_add_grow p c :
  0 <= index_ p -> 0 <= c -> index_ p + c < size_t_modulus - 1 ->
  Pointer_add p c =
  mkPointer (mem_ p ++ repeat 0 (Z.to_nat (index_ p + c + 1) - length (mem_ p))%nat)
            (index_ p + c).
Proof.
  intros Hi Hc Hsmall. unfold Pointer_add, mem_size.
  rewrite (size_t_wrap_small (index_ p + c)) by lia.
  destruct (Z.leb_spec (Z.of_nat (length (mem_ p))) (index_ p + c)).
  - rewrite size_t_wrap_small by lia. rewrite resize_grow by lia. reflexivity.
  - replace (Z.to_nat (index_ p + c + 1) - length (mem_ p))%nat with O by lia.
    simpl. rewrite app_nil_r. reflexivity.
Qed.

(** X3. Moving the cursor forward by [c] (without leaving the range of
    [size_t]) only appends cells to the tape, all of them 0, as many as are
    needed to materialise the new address; the cells that existed keep their
    values, and a cell first reached this way reads 0. *)
Theorem advance_grows_with_zero_cells (p : Pointer) (c : Z) :
  0 <= index_ p -> 0 <= c -> index_ p + c < size_t_modulus - 1 ->
  index_ (Pointer_add p c) = index_ p + c /\
  mem_ (Pointer_add p c) =
    mem_ p ++ repeat 0 (Z.to_nat (index_ p + c + 1) - length (mem_ p))%nat /\
  (forall i v, nth_error (mem_ p) i = Some v ->
               nth_error (mem_ (Pointer_add p c)) i = Some v) /\
  (mem_size p <= index_ p + c -> deref (Pointer_add p c) = Ok 0).
Proof.
  intros Hi Hc Hsmall. rewrite Pointer_add_grow by assumption. cbn [index_ mem_].
  repeat split.
  - intros i v Hv. rewrite nth_error_app1; [exact Hv|].
    apply nth_error_Some. congruence.
  - unfold mem_size. intros Hnew. unfold deref, mem_size. cbn [index_ mem_].
    rewrite length_app, repeat_length.
    destruct (Z.gtb_spec
                (Z.of_nat (length (mem_ p) +
                           (Z.to_nat (index_ p + c + 1) - length (mem_ p))))
                (index_ p + c)); [|lia].
    rewrite nth_error_app2 by lia.
    rewrite nth_error_repeat by lia. reflexivity.
Qed.

Lemma advance_grows_with_zero_cells_witness :
  index_ (Pointer_add (mkPointer [4; 5] 1) 3) = 4 /\
  mem_ (Pointer_add (mkPointer [4; 5] 1) 3) = [4; 5; 0; 0; 0] /\
  deref (Pointer_add (mkPointer [4; 5] 1) 3) = Ok 0.
Proof.
  destruct (advance_grows_with_zero_cells (mkPointer [4; 5] 1) 3)
    as (H1 & H2 & _ & H3).
  - simpl. lia.
  - lia.
  - vm_compute. reflexivity.
  - split; [exact H1|]. split; [exact H2|]. apply H3. vm_compute. discriminate.
Defined.

(** X4. Moving the cursor forward by [c > 0] and back by [c] returns it to
    the address it had, and the cell there reads what it read before: the
    growth of the tape resets nothing on the way. *)
Theorem advance_then_retreat (p : Pointer) (c : Z) :
  pointer_ok p -> 0 < c -> index_ p + c < size_t_modulus - 1 ->
  exists p',
    Pointer_sub (Pointer_add p c) c = Ok p' /\
    index_ p' = index_ p /\
    mem_ p' = mem_ (Pointer_add p c) /\
    deref p' = deref p.
Proof.
  intros [Hlo Hhi] Hc Hsmall. unfold mem_size in Hhi.
  rewrite Pointer_add_grow by lia.
  eexists. split; [|split; [|split]].
  - unfold Pointer_sub. cbn [index_ mem_].
    replace (index_ p + c - c) with (index_ p) by lia.
    rewrite size_t_wrap_small by lia.
    destruct (Z.ltb_spec (index_ p) (index_ p + c)); [reflexivity | lia].
  - reflexivity.
  - reflexivity.
  - unfold deref, mem_size. cbn [index_ mem_].
    rewrite length_app, repeat_length.
    destruct (Z.gtb_spec
                (Z.of_nat (length (mem_ p) +
                           (Z.to_nat (index_ p + c + 1) - length (mem_ p))))
                (index_ p)); [|lia].
    destruct (Z.gtb_spec (Z.of_nat (length (mem_ p))) (index_ p)); [|lia].
    rewrite nth_error_app1 by lia. reflexivity.
Qed.

Lemma advance_then_retreat_witness :
  exists p',
    Pointer_sub (Pointer_add (mkPointer [9] 0) 5) 5 = Ok p' /\
    index_ p' = 0 /\
    mem_ p' = mem_ (Pointer_add (mkPointer [9] 0) 5) /\
    deref p' = deref (mkPointer [9] 0).
Proof.
  apply (advance_then_retreat (mkPointer [9] 0) 5).
  - unfold pointer_ok. vm_compute. split; [discriminate | reflexivity].
  - lia.
  - vm_compute. reflexivity.
Defined.

(** * Further properties of the command compiler *)

(** X5. [skipComment] removes a prefix made of comment characters only and
    stops in front of the first operator character, or at the end. *)
Theorem skipComment_drops_leading_comments (beg : list ascii) :
  exists pre,
    beg = pre ++ skipComment beg /\
    Forall (fun x => isCommand x = false) pre /\
    match skipComment beg with
    | [] => True
    | x :: _ => isCommand x = true
    end.
Proof.
  induction beg as [|x beg (pre & Hsplit & Hpre & Hhead)].
  - exists []. repeat split. constructor.
  - simpl. destruct (isCommand x) eqn:Hx; simpl.
    + exists []. repeat split; [constructor | exact Hx].
    + exists (x :: pre). repeat split.
      * simpl. f_equal. exact Hsplit.
      * constructor; assumption.
      * exact Hhead.
Qed.

Lemma compiled_counts_witness :
  Forall (fun com =>
            if isLoopCommand (command com) then count com = 1
            else if isCommand (command com) then 1 <= count com
            else count com = 0)
         (program_of (chars "a+b+[c-]")).
Proof.
  apply (compiled_counts (chars "a+b+[c-]")). vm_compute. reflexivity.
Defined.

Lemma run_filter ch : forall r,
  filter isCommand r =
  repeat ch (run_count ch r) ++ filter isCommand (run_rest ch r).
Proof.
  induction r as [|x r IH]; [reflexivity|].
  simpl. destruct (isCommand x) eqn:Hx; simpl.
  - destruct (Ascii.eqb x ch) eqn:E.
    + apply Ascii.eqb_eq in E. subst x. simpl. f_equal. exact IH.
    + simpl. rewrite Hx. reflexivity.
  - exact IH.
Qed.

Lemma serialize_program_of : forall src,
  Z.of_nat (length src) < size_t_modulus ->
  serialize (program_of src) = filter isCommand src.
Proof.
  intros src. remember (length src) as n eqn:Hn. revert src Hn.
  induction n as [n IH] using (well_founded_induction Wf_nat.lt_wf).
  intros [|ch r] Hn Hsmall; [reflexivity|]. subst n. simpl length in *.
  destruct (isLoopCommand ch) eqn:Hl.
  - rewrite program_of_loop by exact Hl. rewrite serialize_cons.
    cbn [filter command count]. rewrite (isLoopCommand_isCommand _ Hl).
    rewrite (IH (length r)) by (reflexivity || lia). reflexivity.
  - destruct (isCommand ch) eqn:Hc.
    + rewrite program_of_run by assumption. rewrite serialize_cons.
      pose proof (run_count_le ch r) as Hcount.
      pose proof (run_rest_length ch r) as Hrest.
      rewrite size_t_wrap_small by lia. cbn [filter command count]. rewrite Hc.
      rewrite Nat2Z.id. cbn [repeat app].
      rewrite (IH (length (run_rest ch r))) by (reflexivity || lia).
      rewrite (run_filter ch r). reflexivity.
    + rewrite program_of_comment by exact Hc. rewrite serialize_cons.
      cbn [filter command count repeat Z.to_nat app]. rewrite Hc.
      apply (IH (length r)); [lia | reflexivity | lia].
Qed.

(** X7. Writing the compiled vector back as text gives the text without its
    comment characters: every operator character of the text is accounted
    for, in order, by the counts of the Commands (texts shorter than 2^64
    characters). *)
Theorem serialize_restores_operators (src : list ascii) :
  Z.of_nat (length src) < size_t_modulus ->
  exists P,
    generateSourceCode src = Some P /\
    serialize P = filter isCommand src.
Proof.
  intros Hsmall. exists (program_of src).
  split; [apply generateSourceCode_total | apply serialize_program_of; exact Hsmall].
Qed.

Lemma serialize_restores_operators_witness :
  exists P,
    generateSourceCode (chars "x++y+[-z-]") = Some P /\
    serialize P = chars "+++[--]".
Proof.
  apply (serialize_restores_operators (chars "x++y+[-z-]")).
  vm_compute. reflexivity.
Defined.

Lemma filter_isCommand_length src :
  (length (filter isCommand src) <= length src)%nat.
Proof.
  induction src as [|x src IH]; simpl; [lia|].
  destruct (isCommand x); simpl; lia.
Qed.

Lemma program_of_filter src :
  Z.of_nat (length src) < size_t_modulus ->
  program_of (filter isCommand src) = strip (program_of src).
Proof.
  intros Hsmall. pose proof (recompile_serialized src Hsmall) as H.
  rewrite serialize_program_of in H by exact Hsmall.
  rewrite generateSourceCode_total in H. injection H as H. exact H.
Qed.

(** X8. Removing the comment characters from a text before compiling it
    removes the comment Commands from the compiled vector and changes
    nothing else; and a text without comment characters compiles to a
    vector that is recovered exactly by compiling its serialisation (texts
    shorter than 2^64 characters). *)
Theorem compiling_without_comments (src : list ascii) :
  Z.of_nat (length src) < size_t_modulus ->
  exists P,
    generateSourceCode src = Some P /\
    generateSourceCode (filter isCommand src) = Some (strip P) /\
    (Forall (fun x => isCommand x = true) src ->
     generateSourceCode (serialize P) = Some P).
Proof.
  intros Hsmall. exists (program_of src).
  split; [apply generateSourceCode_total|]. split.
  - rewrite generateSourceCode_total. f_equal. apply program_of_filter. exact Hsmall.
  - intros Hall. rewrite serialize_program_of by exact Hsmall.
    replace (filter isCommand src) with src; [apply generateSourceCode_total|].
    symmetry. apply forallb_filter_id. apply forallb_forall.
    intros x Hx. rewrite Forall_forall in Hall. auto.
Qed.

Lemma compiling_without_comments_witness :
  exists P,
    generateSourceCode (chars "++[->+<]") = Some P /\
    generateSourceCode (filter isCommand (chars "++[->+<]")) = Some (strip P) /\
    generateSourceCode (serialize P) = Some P.
Proof.
  destruct (compiling_without_comments (chars "++[->+<]"))
    as (P & H1 & H2 & H3).
  - vm_compute. reflexivity.
  - exists P. split; [exact H1|]. split; [exact H2|]. apply H3.
    repeat (constructor; [reflexivity|]). constructor.
Defined.

Lemma program_of_head d t :
  exists n P, program_of (d :: t) = mkCommand d n :: P.
Proof.
  destruct (isLoopCommand d) eqn:Hl.
  - rewrite program_of_loop by exact Hl. eauto.
  - destruct (isCommand d) eqn:Hc.
    + rewrite program_of_run by assumption. eauto.
    + rewrite program_of_comment by exact Hc. eauto.
Qed.

(** X9. The runs of a compiled vector are maximal: the Command that follows
    a Command of a non-loop operator is never a comment Command and never a
    Command of that same operator. *)
Theorem compiled_runs_are_maximal (src : list ascii) (l1 l2 : list Command)
    (a b : Command) :
  generateSourceCode src = Some (l1 ++ a :: b :: l2) ->
  isCommand (command a) = true ->
  isLoopCommand (command a) = false ->
  isCommand (command b) = true /\ command b <> command a.
Proof.
  rewrite generateSourceCode_total. intros H Ha Hl. injection H as H.
  revert l1 H. remember (length src) as n eqn:Hn. revert src Hn.
  induction n as [n IH] using (well_founded_induction Wf_nat.lt_wf).
  intros [|ch r] Hn l1 H; [destruct l1; discriminate|]. subst n. simpl length in IH.
  assert (Hstep : exists cmd rest,
             program_of (ch :: r) = cmd :: program_of rest /\
             (length rest <= length r)%nat /\
             (cmd = a -> match rest with
                         | [] => True
                         | d :: _ => isCommand d = true /\ d <> command a
                         end)).
  { destruct (isLoopCommand ch) eqn:Hlc.
    - rewrite program_of_loop by exact Hlc. eexists _, r.
      split; [reflexivity|]. split; [lia|]. intros <-. simpl in Hl. congruence.
    - destruct (isCommand ch) eqn:Hc.
      + rewrite program_of_run by assumption. eexists _, (run_rest ch r).
        split; [reflexivity|]. split; [apply run_rest_length|].
        intros <-. simpl. apply run_rest_head.
      + rewrite program_of_comment by exact Hc. eexists _, r.
        split; [reflexivity|]. split; [lia|]. intros <-. simpl in Ha. congruence. }
  destruct Hstep as (cmd & rest & Hprog & Hlen & Hnext). rewrite Hprog in H.
  destruct l1 as [|x l1]; simpl in H.
  - injection H as Hcmd Hrest. specialize (Hnext Hcmd).
    destruct rest as [|d t]; [discriminate|].
    destruct (program_of_head d t) as (m & P & HP). rewrite HP in Hrest.
    injection Hrest as <- _. simpl. exact Hnext.
  - injection H as _ Hrest.
    apply (IH (length rest) ltac:(lia) rest eq_refl l1 Hrest).
Qed.

Lemma compiled_runs_are_maximal_witness :
  isCommand (command (mkCommand "-" 2)) = true /\
  command (mkCommand "-" 2) <> command (mkCommand "+" 2).
Proof.
  apply (compiled_runs_are_maximal (chars "[+a+b--]")
           [mkCommand "[" 1] [mkCommand "]" 1]
           (mkCommand "+" 2) (mkCommand "-" 2)); reflexivity.
Defined.

(** * Further properties of skipLoop *)

Lemma unwinds_plain k com l :
  Command_eq com LoopBegin = false ->
  Command_eq com LoopEnd = false ->
  unwinds (S k) l ->
  unwinds (S k) (com :: l).
Proof.
  intros Hb He H. inversion H as [|k' b c l' Hbal Hc Hl]; subst.
  change (com :: b ++ c :: l') with ((com :: b) ++ c :: l').
  constructor; [constructor|..]; assumption.
Qed.

Lemma unwinds_open k o l :
  Command_eq o LoopBegin = true ->
  unwinds (S (S k)) l ->
  unwinds (S k) (o :: l).
Proof.
  intros Ho H. inversion H as [|k1 b c l1 Hbal Hc Hl1]; subst.
  inversion Hl1 as [|k2 b2 c2 l2 Hbal2 Hc2 Hl2]; subst.
  replace (o :: b ++ c :: b2 ++ c2 :: l2)
    with ((o :: b ++ c :: b2) ++ c2 :: l2)
    by (simpl; rewrite <- app_assoc; reflexivity).
  constructor; [|assumption|assumption].
  constructor; assumption.
Qed.

Lemma unwinds_close k c l :
  Command_eq c LoopEnd = true ->
  unwinds k l ->
  unwinds (S k) (c :: l).
Proof.
  intros Hc H. change (c :: l) with ([] ++ c :: l).
  constructor; [constructor|assumption|assumption].
Qed.

(** What a successful scan has passed. *)
Lemma skipLoop_scan_sound : forall rest p k q,
  1 <= k -> k + Z.of_nat (length rest) < size_t_modulus ->
  skipLoop_scan rest p k = Ok q ->
  exists l post,
    rest = l ++ post /\ unwinds (Z.to_nat k) l /\ (q + 1 = p + length l)%nat.
Proof.
  induction rest as [|com rest IH]; intros p k q Hk Hsmall Hscan;
    [discriminate|].
  simpl length in Hsmall. cbn [skipLoop_scan] in Hscan.
  destruct (Z.to_nat k) as [|k0] eqn:Ek; [lia|].
  destruct (Command_eq com LoopBegin) eqn:Hb.
  - rewrite (size_t_wrap_small (k + 1)) in Hscan by lia.
    replace (k + 1 =? 0) with false in Hscan by (symmetry; apply Z.eqb_neq; lia).
    cbn [negb] in Hscan.
    apply IH in Hscan; [|lia|lia]. destruct Hscan as (l & post & -> & Hl & Hq).
    exists (com :: l), post. split; [reflexivity|]. split.
    + apply unwinds_open; [exact Hb|].
      replace (S (S k0)) with (Z.to_nat (k + 1)) by lia. exact Hl.
    + simpl. lia.
  - destruct (Command_eq com LoopEnd) eqn:He.
    + rewrite (size_t_wrap_small (k - 1)) in Hscan by lia.
      destruct (Z.eqb_spec (k - 1) 0) as [E|E]; cbn [negb] in Hscan.
      * injection Hscan as <-. exists [com], rest. split; [reflexivity|]. split.
        -- replace k0 with O by lia.
           apply unwinds_close; [exact He | constructor].
        -- simpl. lia.
      * apply IH in Hscan; [|lia|lia]. destruct Hscan as (l & post & -> & Hl & Hq).
        exists (com :: l), post. split; [reflexivity|]. split.
        -- apply unwinds_close; [exact He|].
           replace k0 with (Z.to_nat (k - 1)) by lia. exact Hl.
        -- simpl. lia.
    + replace (k =? 0) with false in Hscan by (symmetry; apply Z.eqb_neq; lia).
      cbn [negb] in Hscan.
      apply IH in Hscan; [|lia|lia]. destruct Hscan as (l & post & -> & Hl & Hq).
      exists (com :: l), post. split; [reflexivity|]. split.
      * apply unwinds_plain; [assumption|assumption|].
        rewrite <- Ek. exact Hl.
      * simpl. lia.
Qed.

Lemma skipLoop_scan_error : forall rest p k e,
  skipLoop_scan rest p k = Err e -> e = OutOfBounds.
Proof.
  induction rest as [|com rest IH]; intros p k e H.
  - injection H as <-. reflexivity.
  - cbn [skipLoop_scan] in H.
    destruct (negb _); [eapply IH; exact H | discriminate].
Qed.

Lemma nth_error_split_skipn {A : Type} (l : list A) i x :
  nth_error l i = Some x ->
  exists rest, skipn i l = x :: rest /\ l = firstn i l ++ x :: rest /\
               length (firstn i l) = i.
Proof.
  intros H. pose proof (nth_error_skipn i l 0) as Hn.
  rewrite Nat.add_0_r, H in Hn.
  destruct (skipn i l) as [|y rest] eqn:E; [discriminate|].
  simpl in Hn. injection Hn as ->. exists rest. split; [reflexivity|]. split.
  - rewrite <- E. symmetry. apply firstn_skipn.
  - rewrite length_firstn. apply Nat.min_l. apply Nat.lt_le_incl.
    apply nth_error_Some. congruence.
Qed.

(** X10. [skipLoop] is exact.  Called on a LoopOpen at position [i] of a
    vector shorter than 2^64, it returns [q] only if [q] holds a LoopClose
    and the Commands strictly between [i] and [q] are properly nested; and
    when it does not return a position it has run off the end of the
    vector, which happens only if no such LoopClose exists. *)
Theorem skipLoop_exact (sourceCode : list Command) (i : nat) (o : Command) :
  Z.of_nat (length sourceCode) < size_t_modulus ->
  nth_error sourceCode i = Some o ->
  Command_eq o LoopBegin = true ->
  (forall q,
      skipLoop sourceCode i = Ok q ->
      exists pre body c post,
        sourceCode = pre ++ o :: body ++ c :: post /\
        length pre = i /\
        Command_eq c LoopEnd = true /\
        balanced body /\
        q = (i + 1 + length body)%nat) /\
  (forall e,
      skipLoop sourceCode i = Err e ->
      e = OutOfBounds /\
      ~ exists pre body c post,
          sourceCode = pre ++ o :: body ++ c :: post /\
          length pre = i /\
          Command_eq c LoopEnd = true /\
          balanced body).
Proof.
  intros Hsmall Ho Hb.
  destruct (nth_error_split_skipn _ _ _ Ho) as (rest & Hskip & Hsplit & Hlen).
  assert (Hlr : (length sourceCode = i + S (length rest))%nat).
  { rewrite Hsplit at 1. rewrite length_app, Hlen. reflexivity. }
  split.
  - intros q Hq. unfold skipLoop in Hq. rewrite Ho, Hb, Hskip in Hq.
    cbn [skipLoop_scan] in Hq. rewrite Hb in Hq.
    change (size_t_wrap (0 + 1)) with 1 in Hq. cbn [negb Z.eqb] in Hq.
    destruct (skipLoop_scan_sound rest (S i) 1 q ltac:(lia) ltac:(lia) Hq)
      as (l & post & -> & Hl & Hql).
    change (Z.to_nat 1) with 1%nat in Hl.
    inversion Hl as [|k b c l0 Hbal Hc Hl0]; subst. inversion Hl0; subst.
    exists (firstn i sourceCode), b, c, post.
    rewrite <- app_assoc in Hsplit. simpl in Hsplit.
    split; [exact Hsplit|]. split; [exact Hlen|]. split; [exact Hc|].
    split; [exact Hbal|]. rewrite length_app in Hql. simpl in Hql. lia.
  - intros e He. split.
    + unfold skipLoop in He. rewrite Ho, Hb in He.
      eapply skipLoop_scan_error. exact He.
    + intros (pre & body & c & post & Heq & Hpre & Hc & Hbal).
      assert (Hbody : Z.of_nat (length body) + 1 < size_t_modulus).
      { rewrite Heq in Hsmall. rewrite length_app in Hsmall. simpl in Hsmall.
        rewrite length_app in Hsmall. simpl in Hsmall. lia. }
      pose proof (skipLoop_matching pre o body c post Hb Hc Hbal Hbody) as Hok.
      rewrite <- Heq, Hpre in Hok. congruence.
Qed.

Lemma skipLoop_exact_witness :
  (exists pre body c post,
      chars_program "+[[-]>]<[" = pre ++ mkCommand "[" 1 :: body ++ c :: post /\
      length pre = 1%nat /\
      Command_eq c LoopEnd = true /\
      balanced body /\
      6%nat = (1 + 1 + length body)%nat) /\
  skipLoop (chars_program "+[[-]>]<[") 8 = Err OutOfBounds.
Proof.
  split.
  - apply (proj1 (skipLoop_exact (chars_program "+[[-]>]<[") 1 (mkCommand "[" 1)
                    ltac:(vm_compute; reflexivity) eq_refl eq_refl) 6%nat).
    reflexivity.
  - destruct (skipLoop (chars_program "+[[-]>]<[") 8) as [q|e] eqn:E;
      [vm_compute in E; discriminate|].
    destruct (proj2 (skipLoop_exact (chars_program "+[[-]>]<[") 8 (mkCommand "[" 1)
                       ltac:(vm_compute; reflexivity) eq_refl eq_refl) e E)
      as [-> _].
    reflexivity.
Defined.

(** * Further properties of interpret *)



Lemma set_nth_set_nth a b : forall mem n,
  set_nth n b (set_nth n a mem) = set_nth n b mem.
Proof.
  induction mem as [|x mem IH]; intros [|n]; simpl; try reflexivity.
  rewrite IH. reflexivity.
Qed.

Lemma assign_assign p a b : assign (assign p a) b = assign p b.
Proof.
  unfold assign. cbn [index_ mem_]. rewrite set_nth_set_nth. reflexivity.
Qed.

Lemma extract_char_some : forall buf c ns,
  StremIter buf = c :: ns ->
  exists buf',
    extract_char (mkIstream buf false) = (mkIstream buf' false, Some c) /\
    StremIter buf' = ns.
Proof.
  unfold extract_char. cbn [in_fail in_buf].
  induction buf as [|x buf IH]; intros c ns H; [discriminate|].
  unfold StremIter in H. simpl in H. simpl.
  destruct (isspace x); simpl in H.
  - apply IH. exact H.
  - injection H as -> H. exists buf. split; [reflexivity | exact H].
Qed.

Lemma cin_loop_reads : forall n buf p v,
  deref p = Ok v ->
  (S n <= length (StremIter buf))%nat ->
  exists buf',
    cin_loop (S n) p (mkIstream buf false) =
      Ok (assign p (cell_of (nth n (StremIter buf) zero)), mkIstream buf' false) /\
    StremIter buf' = skipn (S n) (StremIter buf).
Proof.
  induction n as [|n IH]; intros buf p v Hv Hlen.
  - destruct (StremIter buf) as [|c ns] eqn:E; [simpl in Hlen; lia|].
    destruct (extract_char_some buf c ns E) as (buf' & Hex & Hns).
    exists buf'. cbn [cin_loop]. rewrite Hv. cbn [bind]. rewrite Hex.
    split; [reflexivity | exact Hns].
  - destruct (StremIter buf) as [|c ns] eqn:E; [simpl in Hlen; lia|].
    destruct (extract_char_some buf c ns E) as (buf1 & Hex & Hns).
    simpl in Hlen.
    destruct (IH buf1 (assign p (cell_of c)) (cell_of c)
                (deref_assign _ _ _ Hv) ltac:(rewrite Hns; lia))
      as (buf' & Hloop & Hrest).
    exists buf'. split.
    + change (cin_loop (S (S n)) p (mkIstream buf false))
        with (_ <- deref p ;;
              match extract_char (mkIstream buf false) with
              | (s', Some c0) => cin_loop (S n) (assign p (cell_of c0)) s'
              | (s', None) => cin_loop (S n) p s'
              end).
      rewrite Hv. cbn [bind]. rewrite Hex, Hloop, Hns, assign_assign. reflexivity.
    + rewrite Hrest, Hns. reflexivity.
Qed.

(** X12. An Input instruction with count [n > 0], on a stream that has not
    failed and still holds at least [n] characters that are not white
    space, skips the white space in front of each of them, stores the
    [n]-th of them in the current Cell (the earlier ones are overwritten),
    leaves the stream unfailed with the later ones still to be read, and
    touches neither the cursor nor the output. *)
Theorem input_reads_past_white_space (n : nat) (buf : list ascii)
    (p : Pointer) (v : Z) (out : list Z) :
  deref p = Ok v ->
  (S n <= length (StremIter buf))%nat ->
  exists buf',
    interpret (mkCommand Cin (Z.of_nat (S n))) p (mkIO (mkIstream buf false) out) =
      Ok (true, assign p (cell_of (nth n (StremIter buf) zero)),
          mkIO (mkIstream buf' false) out) /\
    StremIter buf' = skipn (S n) (StremIter buf) /\
    deref (assign p (cell_of (nth n (StremIter buf) zero))) =
      Ok (cell_of (nth n (StremIter buf) zero)).
Proof.
  intros Hv Hlen.
  destruct (cin_loop_reads n buf p v Hv Hlen) as (buf' & Hloop & Hrest).
  exists buf'. split; [|split; [exact Hrest | eapply deref_assign; exact Hv]].
  unfold interpret. cbn [command count cin cout]. rewrite Nat2Z.id.
  change (Ascii.eqb Cin PointerIncr) with false.
  change (Ascii.eqb Cin PointerDecr) with false.
  change (Ascii.eqb Cin CellValIncr) with false.
  change (Ascii.eqb Cin CellValDecr) with false.
  change (Ascii.eqb Cin Cout) with false.
  change (Ascii.eqb Cin Cin) with true. cbv iota.
  rewrite Hloop. reflexivity.
Qed.

Lemma input_reads_past_white_space_witness :
  exists buf',
    interpret (mkCommand Cin 2) (mkPointer [0] 0)
              (mkIO (mkIstream (chars " a  bc") false) []) =
      Ok (true, mkPointer [98] 0, mkIO (mkIstream buf' false) []) /\
    StremIter buf' = chars "c" /\
    deref (mkPointer [98] 0) = Ok 98.
Proof.
  apply (input_reads_past_white_space 1 (chars " a  bc") (mkPointer [0] 0) 0 []).
  - reflexivity.
  - vm_compute. lia.
Defined.

(** * Further properties of the execution loop *)

Lemma skipws_suffix : forall buf, exists pre, buf = pre ++ skipws buf.
Proof.
  induction buf as [|x buf [pre IH]]; [exists []; reflexivity|].
  simpl. destruct (isspace x).
  - exists (x :: pre). simpl. f_equal. exact IH.
  - exists []. reflexivity.
Qed.

Lemma extract_char_consumes s s' oc :
  extract_char s = (s', oc) ->
  (exists consumed, in_buf s = consumed ++ in_buf s') /\
  (in_fail s = true -> in_fail s' = true).
Proof.
  unfold extract_char. destruct (in_fail s) eqn:Hf.
  - intros H. injection H as <- _. split; [exists []; reflexivity | auto].
  - destruct (skipws_suffix (in_buf s)) as [pre Hpre].
    destruct (skipws (in_buf s)) as [|c buf'] eqn:E; intros H; injection H as <- _;
      (split; [|discriminate]); cbn [in_buf].
    + exists (in_buf s). rewrite app_nil_r. reflexivity.
    + exists (pre ++ [c]). rewrite <- app_assoc. exact Hpre.
Qed.

Lemma cin_loop_consumes : forall n p s p' s',
  cin_loop n p s = Ok (p', s') ->
  (exists consumed, in_buf s = consumed ++ in_buf s') /\
  (in_fail s = true -> in_fail s' = true).
Proof.
  induction n as [|n IH]; intros p s p' s' H.
  - injection H as _ <-. split; [exists []; reflexivity | auto].
  - cbn [cin_loop] in H. destruct (deref p); [|discriminate]. cbn [bind] in H.
    destruct (extract_char s) as [s1 oc] eqn:E.
    destruct (extract_char_consumes _ _ _ E) as [[c1 Hc1] Hf1].
    assert (Hrec : exists p1, cin_loop n p1 s1 = Ok (p', s')).
    { destruct oc; eauto. }
    destruct Hrec as [p1 Hrec].
    destruct (IH _ _ _ _ Hrec) as [[c2 Hc2] Hf2]. split.
    + exists (c1 ++ c2). rewrite <- app_assoc, <- Hc2. exact Hc1.
    + auto.
Qed.

Lemma interpret_streams com p io0 b p' io' :
  interpret com p io0 = Ok (b, p', io') ->
  (exists out, cout io' = cout io0 ++ out) /\
  (exists consumed, in_buf (cin io0) = consumed ++ in_buf (cin io')) /\
  (in_fail (cin io0) = true -> in_fail (cin io') = true).
Proof.
  assert (Hsame : (exists out, cout io0 = cout io0 ++ out) /\
                  (exists consumed, in_buf (cin io0) = consumed ++ in_buf (cin io0)) /\
                  (in_fail (cin io0) = true -> in_fail (cin io0) = true)).
  { split; [exists []; rewrite app_nil_r; reflexivity|].
    split; [exists []; reflexivity | auto]. }
  unfold interpret.
  destruct (Ascii.eqb (command com) PointerIncr).
  { intros H. injection H as _ _ <-. exact Hsame. }
  destruct (Ascii.eqb (command com) PointerDecr).
  { destruct (Pointer_sub p (count com)); [|discriminate].
    intros H. injection H as _ _ <-. exact Hsame. }
  destruct (Ascii.eqb (command com) CellValIncr).
  { destruct (deref p); [|discriminate].
    intros H. injection H as _ _ <-. exact Hsame. }
  destruct (Ascii.eqb (command com) CellValDecr).
  { destruct (deref p); [|discriminate].
    intros H. injection H as _ _ <-. exact Hsame. }
  destruct (Ascii.eqb (command com) Cout).
  { destruct (deref p); [|discriminate].
    intros H. injection H as _ _ <-. cbn [cin cout].
    split; [eauto|]. split; [exists []; reflexivity | auto]. }
  destruct (Ascii.eqb (command com) Cin).
  { destruct (cin_loop (Z.to_nat (count com)) p (cin io0)) as [[p1 s1]|] eqn:E;
      [|discriminate].
    intros H. injection H as _ _ <-. cbn [cin cout snd].
    split; [exists []; rewrite app_nil_r; reflexivity|].
    exact (cin_loop_consumes _ _ _ _ _ E). }
  intros H. injection H as _ _ <-. exact Hsame.
Qed.

Lemma step_streams sourceCode s s' :
  step sourceCode s = Ok s' ->
  (exists out, cout (io s') = cout (io s) ++ out) /\
  (exists consumed, in_buf (cin (io s)) = consumed ++ in_buf (cin (io s'))) /\
  (in_fail (cin (io s)) = true -> in_fail (cin (io s')) = true).
Proof.
  assert (Hsame : (exists out, cout (io s) = cout (io s) ++ out) /\
                  (exists consumed,
                      in_buf (cin (io s)) = consumed ++ in_buf (cin (io s))) /\
                  (in_fail (cin (io s)) = true -> in_fail (cin (io s)) = true)).
  { split; [exists []; rewrite app_nil_r; reflexivity|].
    split; [exists []; reflexivity | auto]. }
  unfold step. destruct (nth_error sourceCode (it s)) as [com|]; [|discriminate].
  destruct (Command_eq com LoopBegin).
  - destruct (deref (ptr s)) as [v|]; [|discriminate]. cbn [bind].
    destruct (v =? 0).
    + destruct (skipLoop sourceCode (it s)); [|discriminate].
      intros H. injection H as <-. exact Hsame.
    + intros H. injection H as <-. exact Hsame.
  - destruct (Command_eq com LoopEnd).
    + destruct (loopPos s); [discriminate|].
      intros H. injection H as <-. exact Hsame.
    + destruct (interpret com (ptr s) (io s)) as [[[b p'] io']|] eqn:E;
        [|discriminate].
      intros H. injection H as <-. cbn [io snd].
      exact (interpret_streams _ _ _ _ _ _ E).
Qed.

(** X13. Whatever the vector, the loop of [main] only ever appends to the
    output and only ever takes characters from the front of the input:
    after any number of iterations the output so far extends the output
    there was, the input left is a suffix of the input there was, and an
    input stream that had failed is still failed. *)
Theorem streams_are_monotone (sourceCode : list Command) :
  forall n s s',
    steps n sourceCode s = Ok s' ->
    (exists out, cout (io s') = cout (io s) ++ out) /\
    (exists consumed, in_buf (cin (io s)) = consumed ++ in_buf (cin (io s'))) /\
    (in_fail (cin (io s)) = true -> in_fail (cin (io s')) = true).
Proof.
  induction n as [|n IH]; intros s s' H.
  - injection H as <-. split; [exists []; rewrite app_nil_r; reflexivity|].
    split; [exists []; reflexivity | auto].
  - cbn [steps] in H. destruct (step sourceCode s) as [s1|] eqn:E; [|discriminate].
    cbn [bind] in H.
    destruct (step_streams _ _ _ E) as ([o1 Ho1] & [c1 Hc1] & Hf1).
    destruct (IH _ _ H) as ([o2 Ho2] & [c2 Hc2] & Hf2).
    split; [|split].
    + exists (o1 ++ o2). rewrite Ho2, Ho1, app_assoc. reflexivity.
    + exists (c1 ++ c2). rewrite Hc1, Hc2, app_assoc. reflexivity.
    + auto.
Qed.

Lemma streams_are_monotone_witness :
  (exists out, [7; 98; 98] = [7] ++ out) /\
  (exists consumed, chars "ab c" = consumed ++ chars " c") /\
  (false = true -> false = true).
Proof.
  apply (streams_are_monotone (chars_program ",,..") 2
           (mkState 0 [] (mkPointer [0] 0) (mkIO (mkIstream (chars "ab c") false) [7]))
           (mkState 2 [] (mkPointer [98] 0) (mkIO (mkIstream (chars " c") false) [7; 98; 98]))).
  reflexivity.
Defined.

(** X14. A vector without brackets is executed in one pass: from a cursor
    inside the vector, as many iterations as there are Commands left either
    leave the loop, with the cursor at the end and the stack as it was, or
    abort on the way. *)
Theorem straight_line_vector_terminates (sourceCode : list Command) :
  Forall (fun com => Command_eq com LoopBegin = false /\
                     Command_eq com LoopEnd = false) sourceCode ->
  forall s,
    (it s <= length sourceCode)%nat ->
    exists r,
      run (length sourceCode - it s) sourceCode s = Some r /\
      (forall s', r = Ok s' ->
                  it s' = length sourceCode /\ loopPos s' = loopPos s).
Proof.
  intros Hplain s. remember (length sourceCode - it s)%nat as d eqn:Hd.
  revert s Hd. induction d as [|d IH]; intros s Hd Hle.
  - exists (Ok s). split; [apply run_halted; lia|].
    intros s' H. injection H as <-. split; [lia | reflexivity].
  - rewrite run_step by lia.
    destruct (nth_error sourceCode (it s)) as [com|] eqn:Hcom;
      [|apply nth_error_None in Hcom; lia].
    rewrite Forall_forall in Hplain.
    destruct (Hplain com (nth_error_In _ _ Hcom)) as [Hb He].
    unfold step. rewrite Hcom, Hb, He.
    destruct (interpret com (ptr s) (io s)) as [r|e]; cbn [bind].
    + destruct (IH (mkState (S (it s)) (loopPos s) (snd (fst r)) (snd r)))
        as (r' & Hrun & Hend); [simpl; lia | simpl; lia |].
      exists r'. split; [exact Hrun | exact Hend].
    + exists (Err e). split; [reflexivity | discriminate].
Qed.

Lemma straight_line_vector_terminates_witness :
  exists r,
    run 3 (chars_program "++>,.") 
        (mkState 1 [] (mkPointer [2] 0) (mkIO (mkIstream [] false) [])) = Some r /\
    (forall s', r = Ok s' -> it s' = 4%nat /\ loopPos s' = []).
Proof.
  apply (straight_line_vector_terminates (chars_program "++>,.")
           ltac:(repeat (constructor; [split; reflexivity|]); constructor)
           (mkState 1 [] (mkPointer [2] 0) (mkIO (mkIstream [] false) []))).
  simpl. lia.
Defined.

Lemma skipLoop_in_range sourceCode i q :
  skipLoop sourceCode i = Ok q -> (q < length sourceCode)%nat.
Proof.
  intros H. pose proof H as H'. unfold skipLoop in H'.
  destruct (nth_error sourceCode i) as [com|] eqn:Hcom; [|discriminate].
  destruct (Command_eq com LoopBegin) eqn:Hb; [|discriminate].
  destruct (skipLoop_strip _ _ _ Hcom (bracket_isCommand _ (or_introl Hb)))
    as [_ Hq].
  destruct (Hq q H) as (c & Hc & _).
  apply nth_error_Some. congruence.
Qed.

(** X15. Started at the first Command with an empty stack, the loop of
    [main] keeps its cursor within the vector (at most at its end), and
    every position it has logged on the stack is the position of a
    LoopOpen; so a LoopClose never sends the cursor anywhere else. *)
Theorem cursor_and_stack_stay_in_vector (sourceCode : list Command) :
  forall n s0 s,
    it s0 = O -> loopPos s0 = [] ->
    steps n sourceCode s0 = Ok s ->
    (it s <= length sourceCode)%nat /\
    Forall (fun q => exists o, nth_error sourceCode q = Some o /\
                               Command_eq o LoopBegin = true) (loopPos s).
Proof.
  set (Inv := fun s : State =>
         (it s <= length sourceCode)%nat /\
         Forall (fun q => exists o, nth_error sourceCode q = Some o /\
                                    Command_eq o LoopBegin = true) (loopPos s)).
  assert (Hstep : forall s s', Inv s -> step sourceCode s = Ok s' -> Inv s').
  { intros s s' [Hit Hst] H. unfold step in H.
    destruct (nth_error sourceCode (it s)) as [com|] eqn:Hcom; [|discriminate].
    assert (Hlt : (it s < length sourceCode)%nat)
      by (apply nth_error_Some; congruence).
    destruct (Command_eq com LoopBegin) eqn:Hb.
    - destruct (deref (ptr s)) as [v|]; [|discriminate]. cbn [bind] in H.
      destruct (v =? 0).
      + destruct (skipLoop sourceCode (it s)) as [q|] eqn:Hq; [|discriminate].
        apply skipLoop_in_range in Hq. injection H as <-.
        split; simpl; [lia | exact Hst].
      + injection H as <-. split; simpl; [lia|]. constructor; eauto.
    - destruct (Command_eq com LoopEnd).
      + destruct (loopPos s) as [|top rest] eqn:Hs; [discriminate|].
        injection H as <-. inversion Hst as [|? ? (o & Ho & _) Hrest]; subst.
        split; simpl; [|exact Hrest].
        apply Nat.lt_le_incl. apply nth_error_Some. congruence.
      + destruct (interpret com (ptr s) (io s)); [|discriminate].
        injection H as <-. split; simpl; [lia | exact Hst]. }
  assert (Hgen : forall m a b, Inv a -> steps m sourceCode a = Ok b -> Inv b).
  { induction m as [|m IHm]; intros a b Ha Hab.
    - injection Hab as <-. exact Ha.
    - cbn [steps] in Hab.
      destruct (step sourceCode a) as [a1|] eqn:E; [|discriminate].
      exact (IHm _ _ (Hstep _ _ Ha E) Hab). }
  intros n s0 s Hit Hst H.
  apply (Hgen n s0 s); [|exact H].
  split; [lia | rewrite Hst; constructor].
Qed.

Lemma cursor_and_stack_stay_in_vector_witness :
  (3 <= length (chars_program "+[[-]]"))%nat /\
  Forall (fun q => exists o, nth_error (chars_program "+[[-]]") q = Some o /\
                             Command_eq o LoopBegin = true) [2%nat; 1%nat].
Proof.
  apply (cursor_and_stack_stay_in_vector (chars_program "+[[-]]") 3
           (mkState 0 [] (mkPointer [0] 0) (mkIO (mkIstream [] false) []))
           (mkState 3 [2%nat; 1%nat] (mkPointer [1] 0) (mkIO (mkIstream [] false) [])));
    reflexivity.
Defined.

(** ** Vectors with properly nested brackets *)

Lemma opens_app : forall l1 l2 pos st,
  opens (l1 ++ l2) pos st =
  match opens l1 pos st with
  | Some st' => opens l2 (pos + length l1) st'
  | None => None
  end.
Proof.
  induction l1 as [|com l1 IH]; intros l2 pos st; simpl.
  - rewrite Nat.add_0_r. reflexivity.
  - replace (pos + S (length l1))%nat with (S pos + length l1)%nat by lia.
    destruct (Command_eq com LoopBegin); [apply IH|].
    destruct (Command_eq com LoopEnd); [|apply IH].
    destruct st; [reflexivity | apply IH].
Qed.

Lemma balanced_opens l :
  balanced l -> forall pos st, opens l pos st = Some st.
Proof.
  induction 1 as [|com l Hb He Hl IHl|o body c l Ho Hc Hbody IHbody Hl IHl];
    intros pos st.
  - reflexivity.
  - simpl. rewrite Hb, He. apply IHl.
  - simpl. rewrite Ho. rewrite opens_app, IHbody. simpl.
    rewrite (LoopEnd_not_LoopBegin _ Hc), Hc. apply IHl.
Qed.

Lemma open_loops_app pre l n :
  open_loops (pre ++ l) (length pre + n) =
  match opens pre 0 [] with
  | Some st => opens (firstn n l) (length pre) st
  | None => None
  end.
Proof.
  unfold open_loops. rewrite firstn_app_2, opens_app. reflexivity.
Qed.

Lemma open_loops_S sourceCode n com :
  nth_error sourceCode n = Some com ->
  open_loops sourceCode (S n) =
  match open_loops sourceCode n with
  | Some st => opens [com] n st
  | None => None
  end.
Proof.
  intros H. destruct (nth_error_split _ _ H) as (pre & rest & -> & <-).
  pose proof (open_loops_app pre (com :: rest) 0) as H0.
  pose proof (open_loops_app pre (com :: rest) 1) as H1.
  rewrite Nat.add_0_r in H0. rewrite Nat.add_1_r in H1.
  rewrite H0, H1. simpl.
  destruct (opens pre 0 []); reflexivity.
Qed.

(** The innermost open loop was opened by a LoopOpen further to the left,
    in front of which the other open loops were open already. *)
Lemma open_loops_top sourceCode : forall n top st',
  open_loops sourceCode n = Some (top :: st') ->
  (top < n)%nat /\
  (exists o, nth_error sourceCode top = Some o /\
             Command_eq o LoopBegin = true) /\
  open_loops sourceCode top = Some st'.
Proof.
  induction n as [n IH] using (well_founded_induction Wf_nat.lt_wf).
  intros top st' H. destruct n as [|m]; [discriminate|].
  destruct (nth_error sourceCode m) as [com|] eqn:Hcom.
  - rewrite (open_loops_S _ _ _ Hcom) in H.
    destruct (open_loops sourceCode m) as [stm|] eqn:Hm; [|discriminate].
    simpl in H. destruct (Command_eq com LoopBegin) eqn:Hb.
    + injection H as <- <-. split; [lia|]. split; [eauto | exact Hm].
    + destruct (Command_eq com LoopEnd).
      * destruct stm as [|t rest]; [discriminate|]. injection H as ->.
        destruct (IH m ltac:(lia) _ _ Hm) as (Ht & _ & Hopen).
        destruct (IH t ltac:(lia) _ _ Hopen) as (Htop & Ho & Hrest).
        split; [lia|]. split; assumption.
      * injection H as ->.
        destruct (IH m ltac:(lia) _ _ Hm) as (Ht & Ho & Hrest).
        split; [lia|]. split; assumption.
  - apply nth_error_None in Hcom. unfold open_loops in H.
    rewrite firstn_all2 in H by lia.
    assert (Hm : open_loops sourceCode m = Some (top :: st')).
    { unfold open_loops. rewrite firstn_all2 by lia. exact H. }
    destruct (IH m ltac:(lia) _ _ Hm) as (Ht & Ho & Hrest).
    split; [lia|]. split; assumption.
Qed.

(** If the loops open at the start of [rest] are closed again within
    [rest], down to [kn] levels, the scan entered with the counter at [kn]
    stops at the Command that closes the [kn]-th of them. *)
Lemma skipLoop_scan_opens : forall rest p kn stk final,
  (1 <= kn <= length stk)%nat ->
  Z.of_nat kn + Z.of_nat (length rest) < size_t_modulus ->
  opens rest p stk = Some final ->
  (length final + kn <= length stk)%nat ->
  exists j,
    skipLoop_scan rest p (Z.of_nat kn) = Ok (p + j)%nat /\
    (j < length rest)%nat /\
    opens (firstn (S j) rest) p stk = Some (skipn kn stk).
Proof.
  induction rest as [|com rest IH]; intros p kn stk final Hkn Hsmall Hopen Hfinal.
  - injection Hopen as <-. lia.
  - simpl length in Hsmall. cbn [opens] in Hopen. cbn [skipLoop_scan].
    change (firstn (S ?j) (com :: rest)) with (com :: firstn j rest).
    destruct (Command_eq com LoopBegin) eqn:Hb.
    + replace (Z.of_nat kn + 1) with (Z.of_nat (S kn)) by lia.
      rewrite size_t_wrap_small by lia.
      replace (Z.of_nat (S kn) =? 0) with false by (symmetry; apply Z.eqb_neq; lia).
      cbn [negb].
      destruct (IH (S p) (S kn) (p :: stk) final) as (j & Hscan & Hj & Hpre);
        [simpl; lia | lia | exact Hopen | simpl; lia |].
      exists (S j). split; [rewrite Hscan; f_equal; lia|]. split; [simpl; lia|].
      cbn [firstn opens]. rewrite Hb. exact Hpre.
    + destruct (Command_eq com LoopEnd) eqn:He.
      * destruct stk as [|t stk']; [discriminate|]. simpl length in *.
        replace (Z.of_nat kn - 1) with (Z.of_nat (kn - 1)) by lia.
        rewrite size_t_wrap_small by lia.
        destruct (Nat.eq_dec kn 1) as [-> | Hne].
        -- simpl. exists O. split; [f_equal; lia|]. split; [lia|].
           rewrite Hb, He. reflexivity.
        -- replace (Z.of_nat (kn - 1) =? 0) with false
             by (symmetry; apply Z.eqb_neq; lia).
           cbn [negb].
           destruct (IH (S p) (kn - 1)%nat stk' final) as (j & Hscan & Hj & Hpre);
             [lia | lia | exact Hopen | lia |].
           exists (S j). split; [rewrite Hscan; f_equal; lia|]. split; [simpl; lia|].
           cbn [firstn opens]. rewrite Hb, He.
           destruct kn as [|kn']; [lia|].
           replace (S kn' - 1)%nat with kn' in Hpre by lia. exact Hpre.
      * replace (Z.of_nat kn =? 0) with false by (symmetry; apply Z.eqb_neq; lia).
        cbn [negb].
        destruct (IH (S p) kn stk final) as (j & Hscan & Hj & Hpre);
          [lia | lia | exact Hopen | lia |].
        exists (S j). split; [rewrite Hscan; f_equal; lia|]. split; [simpl; lia|].
        cbn [firstn opens]. rewrite Hb, He. exact Hpre.
Qed.

Lemma step_well_bracketed sourceCode s :
  balanced sourceCode ->
  Z.of_nat (length sourceCode) < size_t_modulus ->
  (it s < length sourceCode)%nat ->
  open_loops sourceCode (it s) = Some (loopPos s) ->
  match step sourceCode s with
  | Ok s' =>
      (it s' <= length sourceCode)%nat /\
      open_loops sourceCode (it s') = Some (loopPos s')
  | Err e =>
      deref (ptr s) = Err e \/
      exists com,
        nth_error sourceCode (it s) = Some com /\
        Command_eq com LoopBegin = false /\
        Command_eq com LoopEnd = false /\
        interpret com (ptr s) (io s) = Err e
  end.
Proof.
  intros Hbal Hsmall Hlt Hinv.
  destruct (nth_error sourceCode (it s)) as [com|] eqn:Hcom;
    [|apply nth_error_None in Hcom; lia].
  pose proof (open_loops_S _ _ _ Hcom) as HS. rewrite Hinv in HS.
  unfold step. rewrite Hcom.
  destruct (nth_error_split _ _ Hcom) as (pre & rest & Hsplit & Hpre).
  assert (Hrest : opens (com :: rest) (it s) (loopPos s) = Some []).
  { pose proof (balanced_opens _ Hbal 0%nat []) as Hw.
    rewrite Hsplit, opens_app in Hw.
    pose proof (open_loops_app pre (com :: rest) 0) as H0.
    rewrite Nat.add_0_r, <- Hsplit, Hpre, Hinv in H0.
    destruct (opens pre 0 []) as [st|]; [|discriminate].
    simpl in H0. injection H0 as <-. rewrite Hpre in Hw. exact Hw. }
  assert (Hlen : length sourceCode = (it s + S (length rest))%nat).
  { rewrite Hsplit, length_app, Hpre. reflexivity. }
  cbn [opens] in Hrest, HS.
  destruct (Command_eq com LoopBegin) eqn:Hb.
  - destruct (deref (ptr s)) as [v|e]; [|left; reflexivity]. cbn [bind].
    destruct (v =? 0).
    + destruct (skipLoop_scan_opens rest (S (it s)) 1 (it s :: loopPos s) [])
        as (j & Hscan & Hj & Hopen); [simpl; lia | lia | exact Hrest | simpl; lia |].
      assert (Hskip : skipLoop sourceCode (it s) = Ok (S (it s) + j)%nat).
      { unfold skipLoop. rewrite Hcom, Hb.
        rewrite Hsplit at 1. rewrite <- Hpre at 1.
        rewrite skipn_app, skipn_all, Nat.sub_diag. simpl skipn. rewrite app_nil_l.
        cbn [skipLoop_scan]. rewrite Hb.
        change (size_t_wrap (0 + 1)) with 1. cbn [negb Z.eqb].
        exact Hscan. }
      rewrite Hskip. cbn [bind it loopPos]. split; [lia|].
      pose proof (open_loops_app pre (com :: rest) (S (S j))) as Happ.
      rewrite <- Hsplit, Hpre in Happ.
      replace (S (S (it s) + j)) with (it s + S (S j))%nat by lia.
      rewrite Happ.
      pose proof (open_loops_app pre (com :: rest) 0) as H0.
      rewrite Nat.add_0_r, <- Hsplit, Hpre, Hinv in H0.
      destruct (opens pre 0 []) as [st|]; [|discriminate].
      simpl in H0. injection H0 as <-.
      cbn [firstn opens]. rewrite Hb. exact Hopen.
    + cbn [it loopPos]. split; [lia | exact HS].
  - destruct (Command_eq com LoopEnd) eqn:He.
    + destruct (loopPos s) as [|top st'] eqn:Hstack; [discriminate|].
      cbn [it loopPos].
      destruct (open_loops_top _ _ _ _ Hinv) as (Htop & _ & Hopen).
      split; [lia | exact Hopen].
    + destruct (interpret com (ptr s) (io s)) as [r|e] eqn:Hint; cbn [bind].
      * cbn [it loopPos]. split; [lia | exact HS].
      * right. exists com. auto.
Qed.

(** X16. On a vector whose brackets are properly nested (and which is
    shorter than 2^64) the loop of [main], started at the first Command
    with an empty stack, never fails on a bracket: in every state it
    reaches, the stack holds exactly the positions of the loops open in
    front of the cursor, so it is empty when the loop is left; and if the
    next iteration aborts, it is the tape or [interpret] that aborts it,
    not [skipLoop] and not the pop of the stack. *)
Theorem well_bracketed_vector_is_safe (sourceCode : list Command) :
  balanced sourceCode ->
  Z.of_nat (length sourceCode) < size_t_modulus ->
  forall n s0 s,
    it s0 = O -> loopPos s0 = [] ->
    steps n sourceCode s0 = Ok s ->
    (it s <= length sourceCode)%nat /\
    open_loops sourceCode (it s) = Some (loopPos s) /\
    (it s = length sourceCode -> loopPos s = []) /\
    (forall e,
        (it s < length sourceCode)%nat ->
        step sourceCode s = Err e ->
        deref (ptr s) = Err e \/
        exists com,
          nth_error sourceCode (it s) = Some com /\
          Command_eq com LoopBegin = false /\
          Command_eq com LoopEnd = false /\
          interpret com (ptr s) (io s) = Err e).
Proof.
  intros Hbal Hsmall.
  assert (Hgen : forall n a b,
             (it a <= length sourceCode)%nat ->
             open_loops sourceCode (it a) = Some (loopPos a) ->
             steps n sourceCode a = Ok b ->
             (it b <= length sourceCode)%nat /\
             open_loops sourceCode (it b) = Some (loopPos b)).
  { induction n as [|n IH]; intros a b Hle Hinv H.
    - injection H as <-. auto.
    - cbn [steps] in H.
      destruct (step sourceCode a) as [a1|] eqn:E; [|discriminate].
      cbn [bind] in H.
      destruct (Nat.eq_dec (it a) (length sourceCode)) as [Hend | Hne].
      + unfold step in E.
        destruct (nth_error sourceCode (it a)) eqn:Hn; [|discriminate].
        assert (nth_error sourceCode (it a) <> None) as Hs by congruence.
        apply nth_error_Some in Hs. lia.
      + pose proof (step_well_bracketed sourceCode a Hbal Hsmall ltac:(lia) Hinv)
          as Hstep.
        rewrite E in Hstep. destruct Hstep as [Hle1 Hinv1].
        exact (IH _ _ Hle1 Hinv1 H). }
  intros n s0 s Hit Hst H.
  destruct (Hgen n s0 s) as [Hle Hinv]; [lia | rewrite Hit, Hst; reflexivity | exact H |].
  split; [exact Hle|]. split; [exact Hinv|]. split.
  - intros Hend. rewrite Hend in Hinv. unfold open_loops in Hinv.
    rewrite firstn_all in Hinv. rewrite (balanced_opens _ Hbal) in Hinv.
    injection Hinv as <-. reflexivity.
  - intros e Hlt He.
    pose proof (step_well_bracketed sourceCode s Hbal Hsmall Hlt Hinv) as Hstep.
    rewrite He in Hstep. exact Hstep.
Qed.

Lemma well_bracketed_vector_is_safe_witness :
  (2 <= length (chars_program "+[<]"))%nat /\
  open_loops (chars_program "+[<]") 2 = Some [1%nat] /\
  (2%nat = length (chars_program "+[<]") -> [1%nat] = []) /\
  (forall e,
      (2 < length (chars_program "+[<]"))%nat ->
      step (chars_program "+[<]")
           (mkState 2 [1%nat] (mkPointer [1] 0) (mkIO (mkIstream [] false) [])) =
        Err e ->
      deref (mkPointer [1] 0) = Err e \/
      exists com,
        nth_error (chars_program "+[<]") 2 = Some com /\
        Command_eq com LoopBegin = false /\
        Command_eq com LoopEnd = false /\
        interpret com (mkPointer [1] 0) (mkIO (mkIstream [] false) []) = Err e).
Proof.
  apply (well_bracketed_vector_is_safe (chars_program "+[<]")
           ltac:(apply balanced_plain; [reflexivity | reflexivity |];
                 apply (balanced_nest (mkCommand "[" 1) [mkCommand "<" 1]
                          (mkCommand "]" 1) []);
                 [reflexivity | reflexivity | | apply balanced_nil];
                 apply balanced_plain;
                 [reflexivity | reflexivity | apply balanced_nil])
           ltac:(vm_compute; reflexivity)
           2%nat
           (mkState 0 [] (mkPointer [0] 0) (mkIO (mkIstream [] false) []))
           (mkState 2 [1%nat] (mkPointer [1] 0) (mkIO (mkIstream [] false) []))
           eq_refl eq_refl eq_refl).
Defined.

(** ** Comments of the text and the behaviour of the program *)

Lemma same_outcome_strip sourceCode r :
  same_outcome r (result_map (strip_state sourceCode) r).
Proof. destruct r; simpl; auto. Qed.

(** X17. Comment characters of the source text never change what the
    program does.  Take the vector compiled from a text (shorter than 2^64
    characters) and the vector compiled from the text without its comment
    characters, both started in the same state at the first Command with an
    empty stack.  Then
    - they leave the loop or abort alike, with the same tape and the same
      input and output streams when the loop is left; if one run does
      neither, nor does the other;
    - at every point of an execution, whether it ends or not, the state the
      one has reached has the same tape, input and output as a state the
      other reaches, the comment-free vector needing no more iterations;
    - an iteration that aborts in the one aborts in the other with the same
      error, from states with the same tape, input and output. *)
Theorem comments_never_change_behaviour (src : list ascii) (s0 : State) :
  Z.of_nat (length src) < size_t_modulus ->
  it s0 = O -> loopPos s0 = [] ->
  exists P Q,
    generateSourceCode src = Some P /\
    generateSourceCode (filter isCommand src) = Some Q /\
    (forall fuel r,
        run fuel P s0 = Some r ->
        exists fuel' r', run fuel' Q s0 = Some r' /\ same_outcome r r') /\
    (forall fuel' r',
        run fuel' Q s0 = Some r' ->
        exists fuel r, run fuel P s0 = Some r /\ same_outcome r r') /\
    (forall n s,
        steps n P s0 = Ok s ->
        exists m s',
          (m <= n)%nat /\ steps m Q s0 = Ok s' /\
          ptr s' = ptr s /\ io s' = io s) /\
    (forall m s',
        steps m Q s0 = Ok s' ->
        exists n s,
          (m <= n)%nat /\ steps n P s0 = Ok s /\
          ptr s = ptr s' /\ io s = io s') /\
    (forall n s e,
        steps n P s0 = Ok s ->
        it s <> length P ->
        step P s = Err e ->
        exists m s',
          (m <= n)%nat /\ steps m Q s0 = Ok s' /\
          ptr s' = ptr s /\ io s' = io s /\
          it s' <> length Q /\ step Q s' = Err e) /\
    (forall m s' e,
        steps m Q s0 = Ok s' ->
        it s' <> length Q ->
        step Q s' = Err e ->
        exists n s,
          (m <= n)%nat /\ steps n P s0 = Ok s /\
          ptr s = ptr s' /\ io s = io s' /\
          it s <> length P /\ step P s = Err e).
Proof.
  intros Hsmall Hit Hst.
  exists (program_of src), (strip (program_of src)).
  split; [apply generateSourceCode_total|]. split.
  { rewrite generateSourceCode_total. f_equal. apply program_of_filter. exact Hsmall. }
  assert (Hs0 : strip_state (program_of src) s0 = s0).
  { destruct s0 as [i st p0 io0]. simpl in Hit, Hst. subst. reflexivity. }
  assert (Hok : positions_ok (program_of src) s0).
  { unfold positions_ok. rewrite Hit, Hst. constructor; [lia | constructor]. }
  split; [|split; [|split; [|split; [|split]]]].
  - intros fuel r Hrun.
    destruct (run_strip_forward _ _ _ _ Hok Hrun) as [fuel' Hf].
    rewrite Hs0 in Hf. eexists fuel', _. split; [exact Hf|].
    apply same_outcome_strip.
  - intros fuel' r' Hrun. rewrite <- Hs0 in Hrun.
    destruct (run_strip_backward _ _ _ _ Hok Hrun) as (fuel & r & Hr & ->).
    exists fuel, r. split; [exact Hr | apply same_outcome_strip].
  - intros n s Hsteps.
    destruct (steps_strip_forward _ _ _ _ Hok Hsteps) as (m & Hm & Hs).
    rewrite Hs0 in Hs. exists m, (strip_state (program_of src) s).
    repeat split; assumption.
  - intros m s' Hsteps. rewrite <- Hs0 in Hsteps.
    destruct (steps_strip_backward _ _ _ _ Hok Hsteps)
      as (n & s & Hn & Hs & <- & _).
    exists n, s. repeat split; assumption.
  - intros n s e Hsteps Hrun Herr.
    destruct (abort_strip_forward _ _ _ _ _ Hok Hsteps Hrun Herr)
      as (m & Hm & Hs & Hrun' & Herr').
    rewrite Hs0 in Hs. exists m, (strip_state (program_of src) s).
    repeat split; assumption.
  - intros m s' e Hsteps Hrun Herr. rewrite <- Hs0 in Hsteps.
    destruct (abort_strip_backward _ _ _ _ _ Hok Hsteps Hrun Herr)
      as (n & s & Hn & Hs & <- & Hrun' & Herr').
    exists n, s. repeat split; assumption.
Qed.

Lemma comments_never_change_behaviour_witness :
  (exists fuel' r',
      run fuel' (chars_program "+[-].")
          (mkState 0 [] (mkPointer [0] 0) (mkIO (mkIstream [] false) [])) =
        Some r' /\
      same_outcome
        (Ok (mkState 12 [] (mkPointer [0] 0) (mkIO (mkIstream [] false) [0]))) r') /\
  (exists m s',
      (m <= 9)%nat /\
      steps m (chars_program "+[.]")
            (mkState 0 [] (mkPointer [0] 0) (mkIO (mkIstream [] false) [])) =
        Ok s' /\
      ptr s' = mkPointer [1] 0 /\
      io s' = mkIO (mkIstream [] false) [1]).
Proof.
  split.
  - destruct (comments_never_change_behaviour (chars "say:+[hi-]!.")
                (mkState 0 [] (mkPointer [0] 0) (mkIO (mkIstream [] false) []))
                ltac:(vm_compute; reflexivity) eq_refl eq_refl)
      as (P & Q & HP & HQ & Hrun & _).
    vm_compute in HP, HQ. injection HP as <-. injection HQ as <-.
    apply (Hrun 20%nat). vm_compute. reflexivity.
  - destruct (comments_never_change_behaviour (chars "say:+[hi.]")
                (mkState 0 [] (mkPointer [0] 0) (mkIO (mkIstream [] false) []))
                ltac:(vm_compute; reflexivity) eq_refl eq_refl)
      as (P & Q & HP & HQ & _ & _ & Hsteps & _).
    vm_compute in HP, HQ. injection HP as <-. injection HQ as <-.
    apply (Hsteps 9%nat
             (mkState 9 [5%nat] (mkPointer [1] 0) (mkIO (mkIstream [] false) [1]))).
    reflexivity.
Defined.

(** * Run-length merging and execution *)

Lemma Pointer_eta p : mkPointer (mem_ p) (index_ p) = p.
Proof. destruct p; reflexivity. Qed.

Lemma IO_eta io0 : mkIO (cin io0) (cout io0) = io0.
Proof. destruct io0; reflexivity. Qed.

Lemma Pointer_add_0 p :
  pointer_ok p -> index_ p < size_t_modulus -> Pointer_add p 0 = p.
Proof.
  intros [Hlo Hhi] Hm. unfold mem_size in Hhi. unfold Pointer_add, mem_size.
  rewrite Z.add_0_r. rewrite size_t_wrap_small by lia.
  destruct (Z.leb_spec (Z.of_nat (length (mem_ p))) (index_ p)); [lia|].
  apply Pointer_eta.
Qed.

Lemma Pointer_add_add p a b :
  0 <= index_ p -> 0 <= a -> 0 <= b ->
  index_ p + a + b < size_t_modulus - 1 ->
  Pointer_add (Pointer_add p a) b = Pointer_add p (a + b).
Proof.
  intros Hi Ha Hb Hsmall.
  rewrite (Pointer_add_grow p a) by lia.
  rewrite Pointer_add_grow by (cbn [index_]; lia).
  rewrite (Pointer_add_grow p (a + b)) by lia.
  cbn [index_ mem_]. rewrite length_app, repeat_length, <- app_assoc, <- repeat_app.
  f_equal; [|lia]. f_equal. f_equal. lia.
Qed.

Lemma Pointer_add_ok p c :
  pointer_ok p -> 0 <= c -> index_ p + c < size_t_modulus - 1 ->
  pointer_ok (Pointer_add p c).
Proof.
  intros [Hlo Hhi] Hc Hsmall. unfold mem_size in Hhi.
  rewrite Pointer_add_grow by lia. unfold pointer_ok, mem_size. cbn [index_ mem_].
  rewrite length_app, repeat_length. lia.
Qed.

Lemma interpret_PointerIncr n p io0 :
  interpret (mkCommand PointerIncr n) p io0 = Ok (true, Pointer_add p n, io0).
Proof. reflexivity. Qed.

Lemma interpret_PointerDecr n p io0 :
  interpret (mkCommand PointerDecr n) p io0 =
  (p' <- Pointer_sub p n ;; Ok (true, p', io0)).
Proof. reflexivity. Qed.

Lemma interpret_CellValIncr n p io0 v :
  deref p = Ok v ->
  interpret (mkCommand CellValIncr n) p io0 =
  Ok (true, assign p ((v + n) mod 256), io0).
Proof.
  intros Hv. unfold interpret. simpl. rewrite Hv. simpl.
  rewrite operation_plus. reflexivity.
Qed.

Lemma interpret_CellValDecr n p io0 v :
  deref p = Ok v ->
  interpret (mkCommand CellValDecr n) p io0 =
  Ok (true, assign p ((v - n) mod 256), io0).
Proof.
  intros Hv. unfold interpret. simpl. rewrite Hv. simpl.
  rewrite operation_minus. reflexivity.
Qed.

Lemma interpret_Cout n p io0 v :
  deref p = Ok v ->
  interpret (mkCommand Cout n) p io0 =
  Ok (true, p, mkIO (cin io0) (cout io0 ++ repeat v (Z.to_nat n))).
Proof. intros Hv. unfold interpret. simpl. rewrite Hv. reflexivity. Qed.

Lemma interpret_Cin n p io0 :
  interpret (mkCommand Cin n) p io0 =
  (r <- cin_loop (Z.to_nat n) p (cin io0) ;;
   Ok (true, fst r, mkIO (snd r) (cout io0))).
Proof. reflexivity. Qed.

Lemma times_PointerIncr : forall n p io0,
  pointer_ok p -> index_ p + Z.of_nat n < size_t_modulus - 1 ->
  interpret_times n (mkCommand PointerIncr 1) p io0 =
  Ok (Pointer_add p (Z.of_nat n), io0).
Proof.
  induction n as [|n IH]; intros p io0 Hok Hsmall.
  - simpl. rewrite Pointer_add_0 by (assumption || lia). reflexivity.
  - cbn [interpret_times]. rewrite interpret_PointerIncr. cbn [bind fst snd].
    destruct Hok as [Hlo Hhi].
    assert (Hidx : index_ (Pointer_add p 1) = index_ p + 1).
    { rewrite Pointer_add_grow by lia. reflexivity. }
    rewrite IH; [|apply Pointer_add_ok; [split; assumption | lia | lia]
                 |rewrite Hidx; lia].
    rewrite Pointer_add_add by lia. do 3 f_equal. lia.
Qed.

Lemma times_PointerDecr : forall n p io0,
  0 <= index_ p < size_t_modulus ->
  Z.of_nat (S n) < size_t_modulus ->
  interpret_times (S n) (mkCommand PointerDecr 1) p io0 =
  result_map (fun p' => (p', io0)) (Pointer_sub p (Z.of_nat (S n))).
Proof.
  induction n as [|n IH]; intros p io0 Hi Hn.
  - cbn [interpret_times]. rewrite interpret_PointerDecr.
    change (Z.of_nat 1) with 1. destruct (Pointer_sub p 1); reflexivity.
  - change (interpret_times (S (S n)) (mkCommand PointerDecr 1) p io0)
      with (r <- interpret (mkCommand PointerDecr 1) p io0 ;;
            interpret_times (S n) (mkCommand PointerDecr 1) (snd (fst r)) (snd r)).
    rewrite interpret_PointerDecr.
    destruct (Pointer_sub_cases p 1 Hi ltac:(unfold size_t_modulus; lia))
      as [Hone Hone'].
    destruct (Pointer_sub_cases p (Z.of_nat (S (S n))) Hi ltac:(lia))
      as [Hall Hall'].
    assert (Hcase : 1 <= index_ p \/ index_ p = 0) by lia.
    destruct Hcase as [Hpos | Hzero].
    + rewrite Hone by lia. cbn [bind fst snd].
      rewrite IH by (cbn [index_]; lia).
      destruct (Pointer_sub_cases (mkPointer (mem_ p) (index_ p - 1))
                  (Z.of_nat (S n)) ltac:(cbn [index_]; lia) ltac:(lia))
        as [Hrest Hrest'].
      cbn [index_ mem_] in Hrest, Hrest'.
      assert (Hle : Z.of_nat (S (S n)) <= index_ p \/ index_ p < Z.of_nat (S (S n)))
        by lia.
      destruct Hle as [Hle | Hgt].
      * rewrite Hrest, Hall by lia. simpl. do 3 f_equal. lia.
      * rewrite Hrest', Hall' by lia. reflexivity.
    + rewrite Hone', Hall' by lia. reflexivity.
Qed.

Lemma times_CellValIncr : forall n p io0 v,
  deref p = Ok v ->
  interpret_times (S n) (mkCommand CellValIncr 1) p io0 =
  Ok (assign p ((v + Z.of_nat (S n)) mod 256), io0).
Proof.
  induction n as [|n IH]; intros p io0 v Hv.
  - cbn [interpret_times]. rewrite (interpret_CellValIncr _ _ _ _ Hv). reflexivity.
  - change (interpret_times (S (S n)) (mkCommand CellValIncr 1) p io0)
      with (r <- interpret (mkCommand CellValIncr 1) p io0 ;;
            interpret_times (S n) (mkCommand CellValIncr 1) (snd (fst r)) (snd r)).
    rewrite (interpret_CellValIncr _ _ _ _ Hv). cbn [bind fst snd].
    rewrite (IH _ _ _ (deref_assign _ _ _ Hv)), assign_assign.
    rewrite Z.add_mod_idemp_l by discriminate. do 4 f_equal. lia.
Qed.

Lemma times_CellValDecr : forall n p io0 v,
  deref p = Ok v ->
  interpret_times (S n) (mkCommand CellValDecr 1) p io0 =
  Ok (assign p ((v - Z.of_nat (S n)) mod 256), io0).
Proof.
  induction n as [|n IH]; intros p io0 v Hv.
  - cbn [interpret_times]. rewrite (interpret_CellValDecr _ _ _ _ Hv). reflexivity.
  - change (interpret_times (S (S n)) (mkCommand CellValDecr 1) p io0)
      with (r <- interpret (mkCommand CellValDecr 1) p io0 ;;
            interpret_times (S n) (mkCommand CellValDecr 1) (snd (fst r)) (snd r)).
    rewrite (interpret_CellValDecr _ _ _ _ Hv). cbn [bind fst snd].
    rewrite (IH _ _ _ (deref_assign _ _ _ Hv)), assign_assign.
    rewrite Zminus_mod_idemp_l. do 4 f_equal. lia.
Qed.

Lemma times_Cout : forall n p io0 v,
  deref p = Ok v ->
  interpret_times n (mkCommand Cout 1) p io0 =
  Ok (p, mkIO (cin io0) (cout io0 ++ repeat v n)).
Proof.
  induction n as [|n IH]; intros p io0 v Hv.
  - simpl. rewrite app_nil_r, IO_eta. reflexivity.
  - cbn [interpret_times]. rewrite (interpret_Cout _ _ _ _ Hv). cbn [bind fst snd].
    rewrite (IH _ _ _ Hv). cbn [cin cout].
    rewrite <- app_assoc. reflexivity.
Qed.

Lemma times_Cin : forall n p io0,
  interpret_times n (mkCommand Cin 1) p io0 =
  result_map (fun r => (fst r, mkIO (snd r) (cout io0)))
             (cin_loop n p (cin io0)).
Proof.
  induction n as [|n IH]; intros p io0.
  - simpl. rewrite IO_eta. reflexivity.
  - cbn [interpret_times]. rewrite interpret_Cin.
    change (Z.to_nat 1) with 1%nat. cbn [cin_loop].
    destruct (deref p) as [v|e]; [|reflexivity]. cbn [bind].
    destruct (extract_char (cin io0)) as [s' [c|]]; cbn [bind fst snd];
      rewrite IH; reflexivity.
Qed.

Lemma six_operators ch :
  isCommand ch = true -> isLoopCommand ch = false ->
  ch = PointerIncr \/ ch = PointerDecr \/ ch = CellValIncr \/
  ch = CellValDecr \/ ch = Cout \/ ch = Cin.
Proof.
  unfold isCommand, isLoopCommand.
  destruct (Ascii.eqb ch LoopBegin); [discriminate|].
  destruct (Ascii.eqb ch LoopEnd); [discriminate|].
  destruct (Ascii.eqb_spec ch PointerIncr); [auto|].
  destruct (Ascii.eqb_spec ch PointerDecr); [auto|].
  destruct (Ascii.eqb_spec ch CellValIncr); [auto|].
  destruct (Ascii.eqb_spec ch CellValDecr); [auto|].
  destruct (Ascii.eqb_spec ch Cout); [auto 6|].
  destruct (Ascii.eqb_spec ch Cin); [auto 6|].
  discriminate.
Qed.

Lemma pointer_ok_deref p : pointer_ok p -> exists v, deref p = Ok v.
Proof.
  intros [Hlo Hhi]. unfold mem_size in Hhi. unfold deref, mem_size.
  destruct (Z.gtb_spec (Z.of_nat (length (mem_ p))) (index_ p)); [|lia].
  destruct (nth_error (mem_ p) (Z.to_nat (index_ p))) as [v|] eqn:E; [eauto|].
  apply nth_error_None in E. lia.
Qed.

(** X18. Run-length merging is sound: executing the one Command [(c, n)]
    that a run of [n >= 1] occurrences of a non-loop operator [c] compiles
    to has the same effect on the tape and the streams, and fails in the
    same way, as executing [(c, 1)] [n] times in a row (the cursor on the
    tape and the addresses reached within the range of [size_t]). *)
Theorem run_length_merging_is_sound (ch : ascii) (n : nat) (p : Pointer)
    (io0 : IO) :
  isCommand ch = true -> isLoopCommand ch = false ->
  (1 <= n)%nat ->
  pointer_ok p ->
  index_ p + Z.of_nat n < size_t_modulus - 1 ->
  interpret_times n (mkCommand ch 1) p io0 =
  result_map (fun r => (snd (fst r), snd r))
             (interpret (mkCommand ch (Z.of_nat n)) p io0).
Proof.
  intros Hc Hl Hn Hok Hsmall.
  destruct (pointer_ok_deref p Hok) as [v Hv].
  pose proof Hok as [Hlo Hhi].
  destruct n as [|m]; [lia|].
  destruct (six_operators ch Hc Hl) as [-> | [-> | [-> | [-> | [-> | ->]]]]].
  - rewrite times_PointerIncr by assumption.
    rewrite interpret_PointerIncr. reflexivity.
  - rewrite times_PointerDecr by lia.
    rewrite interpret_PointerDecr.
    destruct (Pointer_sub p (Z.of_nat (S m))); reflexivity.
  - rewrite (times_CellValIncr _ _ _ _ Hv), (interpret_CellValIncr _ _ _ _ Hv).
    reflexivity.
  - rewrite (times_CellValDecr _ _ _ _ Hv), (interpret_CellValDecr _ _ _ _ Hv).
    reflexivity.
  - rewrite (times_Cout _ _ _ _ Hv), (interpret_Cout _ _ _ _ Hv), Nat2Z.id.
    reflexivity.
  - rewrite times_Cin, interpret_Cin, Nat2Z.id.
    destruct (cin_loop (S m) p (cin io0)); reflexivity.
Qed.

Lemma run_length_merging_is_sound_witness :
  interpret_times 3 (mkCommand "<" 1) (mkPointer [5; 6; 7] 2)
                  (mkIO (mkIstream [] false) []) =
  result_map (fun r => (snd (fst r), snd r))
             (interpret (mkCommand "<" 3) (mkPointer [5; 6; 7] 2)
                        (mkIO (mkIstream [] false) [])).
Proof.
  apply (run_length_merging_is_sound "<" 3 (mkPointer [5; 6; 7] 2)
           (mkIO (mkIstream [] false) [])).
  - reflexivity.
  - reflexivity.
  - lia.
  - unfold pointer_ok. vm_compute. split; [discriminate | reflexivity].
  - vm_compute. reflexivity.
Defined.

(** * Two loops *)

Lemma nth_error_after {A : Type} (pre l : list A) k :
  nth_error (pre ++ l) (length pre + k) = nth_error l k.
Proof.
  rewrite nth_error_app2 by lia. f_equal. lia.
Qed.

Lemma run_out_of_fuel sourceCode s :
  it s <> length sourceCode -> run 0 sourceCode s = None.
Proof.
  intros H. apply Nat.eqb_neq in H. cbn [run]. rewrite H. reflexivity.
Qed.

(** X19. An empty loop entered with a non-zero Cell never ends: with the
    cursor on the LoopOpen of [[]] and the current Cell not 0, no number
    of iterations leaves the loop of [main], nor does any iteration
    abort. *)
Theorem empty_loop_never_ends (pre post : list Command) (o c : Command)
    (s : State) (v : Z) :
  Command_eq o LoopBegin = true ->
  Command_eq c LoopEnd = true ->
  it s = length pre ->
  deref (ptr s) = Ok v ->
  v <> 0 ->
  forall fuel, run fuel (pre ++ o :: c :: post) s = None.
Proof.
  intros Ho Hc Hit Hv Hnz.
  set (sourceCode := pre ++ o :: c :: post).
  assert (Hlen : length sourceCode = (length pre + S (S (length post)))%nat).
  { unfold sourceCode. rewrite length_app. reflexivity. }
  assert (Hno : nth_error sourceCode (length pre) = Some o).
  { pose proof (nth_error_after pre (o :: c :: post) 0) as H.
    rewrite Nat.add_0_r in H. exact H. }
  assert (Hnc : nth_error sourceCode (S (length pre)) = Some c).
  { pose proof (nth_error_after pre (o :: c :: post) 1) as H.
    rewrite Nat.add_1_r in H. exact H. }
  assert (H1 : step sourceCode s =
               Ok (mkState (S (length pre)) (length pre :: loopPos s) (ptr s) (io s))).
  { unfold step. rewrite Hit, Hno, Ho, Hv. cbn [bind].
    replace (v =? 0) with false by (symmetry; apply Z.eqb_neq; exact Hnz).
    reflexivity. }
  assert (H2 : step sourceCode
                 (mkState (S (length pre)) (length pre :: loopPos s) (ptr s) (io s)) =
               Ok s).
  { unfold step. cbn [it loopPos ptr io].
    rewrite Hnc, (LoopEnd_not_LoopBegin _ Hc), Hc, <- Hit.
    destruct s; reflexivity. }
  induction fuel as [fuel IH] using (well_founded_induction Wf_nat.lt_wf).
  destruct fuel as [|[|fuel]].
  - apply run_out_of_fuel. lia.
  - rewrite run_step by lia. rewrite H1. apply run_out_of_fuel. simpl. lia.
  - rewrite run_step by lia. rewrite H1.
    rewrite run_step by (simpl; lia). rewrite H2.
    apply IH. lia.
Qed.

Lemma empty_loop_never_ends_witness :
  run 1000 ([mkCommand "+" 1] ++ mkCommand "[" 1 :: mkCommand "]" 1 :: [mkCommand "." 1])
      (mkState 1 [] (mkPointer [1] 0) (mkIO (mkIstream [] false) [])) = None.
Proof.
  apply (empty_loop_never_ends [mkCommand "+" 1] [mkCommand "." 1]
           (mkCommand "[" 1) (mkCommand "]" 1)
           (mkState 1 [] (mkPointer [1] 0) (mkIO (mkIstream [] false) [])) 1).
  - reflexivity.
  - reflexivity.
  - reflexivity.
  - reflexivity.
  - discriminate.
Defined.

(** X20. The loop [[-]] clears the current Cell: entered with the Cell
    holding [k], it takes [3 * k + 1] iterations of the loop of [main],
    after which the cursor is just past the LoopClose, the Cell holds 0,
    and the stack, the cursor address, the other cells and the streams are
    as they were. *)
Theorem clear_loop_zeroes_cell (pre post : list Command) (o c : Command) :
  Command_eq o LoopBegin = true ->
  Command_eq c LoopEnd = true ->
  forall (k : nat) (s : State),
    it s = length pre ->
    deref (ptr s) = Ok (Z.of_nat k) ->
    Z.of_nat k < 256 ->
    steps (3 * k + 1) (pre ++ o :: mkCommand CellValDecr 1 :: c :: post) s =
      Ok (mkState (length pre + 3) (loopPos s)
                  (match k with O => ptr s | S _ => assign (ptr s) 0 end)
                  (io s)).
Proof.
  intros Ho Hc.
  set (m := mkCommand CellValDecr 1).
  set (sourceCode := pre ++ o :: m :: c :: post).
  assert (Hno : nth_error sourceCode (length pre) = Some o).
  { pose proof (nth_error_after pre (o :: m :: c :: post) 0) as H.
    rewrite Nat.add_0_r in H. exact H. }
  assert (Hnm : nth_error sourceCode (S (length pre)) = Some m).
  { pose proof (nth_error_after pre (o :: m :: c :: post) 1) as H.
    rewrite Nat.add_1_r in H. exact H. }
  assert (Hnc : nth_error sourceCode (S (S (length pre))) = Some c).
  { pose proof (nth_error_after pre (o :: m :: c :: post) 2) as H.
    replace (length pre + 2)%nat with (S (S (length pre))) in H by lia. exact H. }
  assert (Hskip : skipLoop sourceCode (length pre) = Ok (length pre + 1 + 1)%nat).
  { apply (skipLoop_matching pre o [m] c post Ho Hc).
    - apply balanced_plain; [reflexivity | reflexivity | apply balanced_nil].
    - reflexivity. }
  induction k as [|k IH]; intros s Hit Hv Hsmall.
  - cbn [Nat.mul Nat.add steps]. unfold step.
    rewrite Hit, Hno, Ho, Hv. cbn [bind Z.eqb].
    rewrite Hskip. change (Z.of_nat 0 =? 0) with true. cbn [bind].
    do 2 f_equal. lia.
  - replace (3 * S k + 1)%nat with (S (S (S (3 * k + 1)))) by lia.
    cbn [steps].
    assert (H1 : step sourceCode s =
                 Ok (mkState (S (length pre)) (length pre :: loopPos s)
                             (ptr s) (io s))).
    { unfold step. rewrite Hit, Hno, Ho, Hv. cbn [bind].
      replace (Z.of_nat (S k) =? 0) with false
        by (symmetry; apply Z.eqb_neq; lia).
      reflexivity. }
    rewrite H1. cbn [bind].
    assert (H2 : step sourceCode
                   (mkState (S (length pre)) (length pre :: loopPos s)
                            (ptr s) (io s)) =
                 Ok (mkState (S (S (length pre))) (length pre :: loopPos s)
                             (assign (ptr s) (Z.of_nat k)) (io s))).
    { unfold step. cbn [it loopPos ptr io]. rewrite Hnm.
      change (Command_eq m LoopBegin) with false.
      change (Command_eq m LoopEnd) with false. cbv iota.
      unfold m. rewrite (interpret_CellValDecr _ _ _ _ Hv). cbn [bind fst snd].
      replace ((Z.of_nat (S k) - 1) mod 256) with (Z.of_nat k)
        by (rewrite Z.mod_small; lia).
      reflexivity. }
    rewrite H2. cbn [bind].
    assert (H3 : step sourceCode
                   (mkState (S (S (length pre))) (length pre :: loopPos s)
                            (assign (ptr s) (Z.of_nat k)) (io s)) =
                 Ok (mkState (length pre) (loopPos s)
                             (assign (ptr s) (Z.of_nat k)) (io s))).
    { unfold step. cbn [it loopPos ptr io].
      rewrite Hnc, (LoopEnd_not_LoopBegin _ Hc), Hc. reflexivity. }
    rewrite H3. cbn [bind].
    rewrite IH; [|reflexivity | apply (deref_assign _ _ _ Hv) | lia].
    cbn [loopPos ptr io]. f_equal. f_equal.
    destruct k; [reflexivity | apply assign_assign].
Qed.

Lemma clear_loop_zeroes_cell_witness :
  steps (3 * 2 + 1)
        ([mkCommand "+" 2] ++ mkCommand "[" 1 :: mkCommand CellValDecr 1
           :: mkCommand "]" 1 :: [mkCommand "." 1])
        (mkState 1 [] (mkPointer [2; 9] 0) (mkIO (mkIstream [] false) [])) =
    Ok (mkState (1 + 3) [] (mkPointer [0; 9] 0) (mkIO (mkIstream [] false) [])).
Proof.
  apply (clear_loop_zeroes_cell [mkCommand "+" 2] [mkCommand "." 1]
           (mkCommand "[" 1) (mkCommand "]" 1) eq_refl eq_refl 2
           (mkState 1 [] (mkPointer [2; 9] 0) (mkIO (mkIstream [] false) []))).
  - reflexivity.
  - reflexivity.
  - reflexivity.
Defined.
